(** * logging: a shallow embedding of [src/logging/logging.go]

    The package writes one JSON object per log call.  This development
    models the program state the package works on (the level handles, the
    standard output stream, the argument maps that callers share with the
    package) and the functions [logGenericArgs], [GetStackInfo], [init],
    the six accessors and the integer formatters, and proves the properties
    of the specification about them.

    Go library functions the package calls are modelled next to it:
    [strconv] (decimal formatting and parsing), [filepath] ([Base] and [Ext]
    on slash-separated paths) and [strings.TrimLeft].  The template engine
    ([text/template]) and the runtime's stack introspection are interfaces:
    the theorems hold for every implementation of them.  A concrete model
    of the field-substitution fragment of [text/template] is given for the
    statements that need to run a template. *)

From Stdlib Require Import ZArith String Ascii List Lia.
From stdpp Require Import gmap strings list fin_maps.
From Equations Require Import Equations.

Local Open Scope string_scope.
Local Open Scope Z_scope.

(** ** Machine integers

    Go integers are modelled as [Z] together with the range of their type;
    conversions and negation wrap around as the hardware does. *)

Inductive IntType := TInt | TInt32 | TInt64 | TUint32 | TUint64.

(** [strconv.IntSize] of the usual 64-bit targets. *)
Definition IntSize : Z := 64.

Definition bitSize (t : IntType) : Z :=
  match t with
  | TInt => IntSize
  | TInt32 | TUint32 => 32
  | TInt64 | TUint64 => 64
  end.

Definition isSigned (t : IntType) : bool :=
  match t with
  | TInt | TInt32 | TInt64 => true
  | TUint32 | TUint64 => false
  end.

Definition minValue (t : IntType) : Z :=
  if isSigned t then - 2 ^ (bitSize t - 1) else 0.

Definition maxValue (t : IntType) : Z :=
  if isSigned t then 2 ^ (bitSize t - 1) - 1 else 2 ^ bitSize t - 1.

Definition inRange (t : IntType) (v : Z) : Prop :=
  minValue t <= v <= maxValue t.

(** Conversion to an unsigned [w]-bit integer. *)
Definition toUint (w : Z) (v : Z) : Z := v mod 2 ^ w.

(** Conversion to a signed [w]-bit integer (two's complement). *)
Definition toInt (w : Z) (v : Z) : Z :=
  (v + 2 ^ (w - 1)) mod 2 ^ w - 2 ^ (w - 1).

(** ** Strings

    Go strings are byte sequences; [string] with [String.get],
    [String.substring] and [String.length] plays that role. *)

Fixpoint string_forallb (p : ascii -> bool) (s : string) : bool :=
  match s with
  | EmptyString => true
  | String c s' => p c && string_forallb p s'
  end.

Definition isNot (c : ascii) : ascii -> bool := fun x => negb (Ascii.eqb x c).

(** ** strconv *)

Module strconv.

Definition digitChar (d : Z) : ascii := ascii_of_nat (Z.to_nat (48 + d)).

(** Dividing by ten shortens the binary length: the measure of the digit
    loop. *)
Lemma log2_div10 (u : Z) :
  10 <= u -> (Z.to_nat (Z.log2 (u / 10)) < Z.to_nat (Z.log2 u))%nat.
Proof.
  intros Hu.
  assert (0 < u / 10) by (apply Z.div_str_pos; lia).
  assert (u / 10 <= u / 2) by (apply Z.div_le_compat_l; lia).
  assert (Z.log2 (u / 10) <= Z.log2 (u / 2)) by (by apply Z.log2_le_mono).
  assert (Z.log2 (u / 2) = Z.log2 u - 1)
    by (rewrite <- Z.div2_div, Z.div2_spec, Z.log2_shiftr by lia;
        pose proof (Z.log2_pos u ltac:(lia)); lia).
  pose proof (Z.log2_nonneg (u / 10)).
  pose proof (Z.log2_pos u ltac:(lia)). lia.
Qed.

(** The digit loop of [formatBits] for base 10: the buffer is filled from
    its end, least significant digit first. *)
Equations? digits (u : Z) (acc : string) : string
  by wf (Z.to_nat (Z.log2 u)) lt :=
  digits u acc with Z_lt_dec u 10 => {
    | left _ := String (digitChar u) acc;
    | right _ := digits (u / 10) (String (digitChar (u mod 10)) acc) }.
Proof. apply log2_div10. lia. Qed.

(** [formatBits(nil, u, 10, neg, false)]: [u] is the 64-bit pattern of the
    value; a negative value is negated in unsigned arithmetic first. *)
Definition formatBits (u : Z) (neg : bool) : string :=
  let u := if neg then toUint 64 (- u) else u in
  let s := digits u "" in
  if neg then String "-" s else s.

Definition FormatUint (i : Z) : string := formatBits i false.

Definition FormatInt (i : Z) : string := formatBits (toUint 64 i) (i <? 0).

(** [Itoa(i)] is [FormatInt(int64(i), 10)]. *)
Definition Itoa (i : Z) : string := FormatInt (toInt 64 i).

(** Reading decimal digits, most significant first. *)
Fixpoint parseDigits (s : string) (n : Z) : option Z :=
  match s with
  | EmptyString => Some n
  | String c s' =>
      let d := Z.of_nat (nat_of_ascii c) - 48 in
      if (0 <=? d) && (d <=? 9) then parseDigits s' (n * 10 + d) else None
  end.

(** [ParseUint(s, 10, bitSize)]: digits only, no sign, and the value must
    fit [bitSize] bits. *)
Definition ParseUint (s : string) (bits : Z) : option Z :=
  match s with
  | EmptyString => None
  | _ =>
      match parseDigits s 0 with
      | Some n => if n <? 2 ^ bits then Some n else None
      | None => None
      end
  end.

(** [ParseInt(s, 10, bitSize)]: an optional sign, then [ParseUint] of the
    rest at 64 bits, then the range check against the cutoff
    [1 << (bitSize-1)]. *)
Definition ParseInt (s : string) (bits : Z) : option Z :=
  match s with
  | EmptyString => None
  | String c s' =>
      let neg := Ascii.eqb c "-" in
      let body := if neg || Ascii.eqb c "+" then s' else s in
      match ParseUint body 64 with
      | None => None
      | Some un =>
          let cutoff := 2 ^ (bits - 1) in
          if negb neg && (cutoff <=? un) then None
          else if neg && (cutoff <? un) then None
          else Some (if neg then - un else un)
      end
  end.

End strconv.

(** ** path/filepath, on slash-separated paths *)

Module filepath.

Definition isPathSeparator (c : ascii) : bool := Ascii.eqb c "/".

(** [for len(path) > 0 && os.IsPathSeparator(path[len(path)-1])
      { path = path[0 : len(path)-1] }]: [n] is the current length. *)
Fixpoint stripTrailingSeparators (path : string) (n : nat) : string :=
  match n with
  | O => ""
  | S m =>
      match String.get m path with
      | Some c =>
          if isPathSeparator c then stripTrailingSeparators path m
          else substring 0 n path
      | None => substring 0 n path
      end
  end.

(** [i := len(path) - 1; for i >= 0 && !os.IsPathSeparator(path[i]) { i-- }]:
    the index the loop stops at, [None] when it runs down to [-1]. *)
Fixpoint lastSeparator (path : string) (n : nat) : option nat :=
  match n with
  | O => None
  | S i =>
      match String.get i path with
      | Some c => if isPathSeparator c then Some i else lastSeparator path i
      | None => lastSeparator path i
      end
  end.

Definition Base (path : string) : string :=
  if String.eqb path "" then "."
  else
    let path := stripTrailingSeparators path (String.length path) in
    let path :=
      match lastSeparator path (String.length path) with
      | Some i => substring (S i) (String.length path - S i) path
      | None => path
      end in
    if String.eqb path "" then "/" else path.

(** [for i := len(path) - 1; i >= 0 && !os.IsPathSeparator(path[i]); i--
      { if path[i] == '.' { return path[i:] } }; return ""]. *)
Fixpoint extFrom (path : string) (n : nat) : string :=
  match n with
  | O => ""
  | S i =>
      match String.get i path with
      | Some c =>
          if isPathSeparator c then ""
          else if Ascii.eqb c "." then substring i (String.length path - i) path
          else extFrom path i
      | None => ""
      end
  end.

Definition Ext (path : string) : string := extFrom path (String.length path).

End filepath.

(** ** strings *)

Module strings.

Fixpoint containsByte (cutset : string) (c : ascii) : bool :=
  match cutset with
  | EmptyString => false
  | String d cutset' => Ascii.eqb c d || containsByte cutset' c
  end.

(** [TrimLeft(s, cutset)]: [s] without its leading bytes that are in
    [cutset]. *)
Fixpoint TrimLeft (s cutset : string) : string :=
  match s with
  | EmptyString => ""
  | String c s' => if containsByte cutset c then TrimLeft s' cutset else s
  end.

End strings.

(** ** The interfaces the package is written against *)

(** Results of library calls that return [(value, error)]: the value, or the
    text of the error ([err.Error()]). *)
Inductive result (A : Type) :=
| Ok (a : A)
| Failed (message : string).
Arguments Ok {A} a.
Arguments Failed {A} message.

(** [text/template]: [Parse] is [template.New("").Parse(text)]; [Execute t
    data] is [t.Execute(&buf, data)] followed by [buf.String()] when no
    error is returned. *)
Class TemplateEngine := {
  Template : Type;
  Parse : string -> result Template;
  Execute : Template -> gmap string string -> result string;
}.

(** What one call sees of its surroundings: the call stack as
    [runtime.Caller] and [runtime.FuncForPC] report it from inside
    [GetStackInfo], and the reading of the wall clock,
    [time.Now().Format(time.RFC3339Nano)].  [Caller skip] is [None] when the
    runtime answers [ok = false]; [FuncForPC pc] is [None] for [nil],
    otherwise the function's [Name()]. *)
Class Runtime := {
  Caller : Z -> option (Z * string * Z);
  FuncForPC : Z -> option string;
  Now : string;
}.

(** ** The data of the package *)

(** Heap addresses; a pointer or a map reference is [None] when it is
    [nil]. *)
Definition loc := nat.

(** [type Args map[string]string]. *)
Abbreviation Args := (gmap string string).

Record Logger := {
  Level : string;
  IsFatal : bool;
}.

(** The configuration of the [json.Encoder] bound to standard output. *)
Record Encoder := {
  escapeHTML : bool;
  indentPrefix : string;
  indentValue : string;
}.

(** The memory the package works on: the [Logger] structs and the [Args]
    maps that live on the heap, the package-level variables, and the
    objects encoded to standard output so far (oldest first). *)
Record State := {
  heapLogger : gmap loc Logger;
  heapArgs : gmap loc Args;
  stdout : list Args;
  jsonWriter : option Encoder;
  traceLogger : option loc;
  debugLogger : option loc;
  infoLogger : option loc;
  warnLogger : option loc;
  errorLogger : option loc;
  fatalLogger : option loc;
  loggerExeName : string;
}.

(** How a call ends: it returns, or it panics.  [panic(msg)] carries the
    string; dereferencing [nil] is a runtime error. *)
Inductive PanicValue :=
| PanicString (msg : string)
| NilDereference.

Inductive Outcome :=
| Returned
| Panicked (v : PanicValue).

(** ** The scalar formatters *)

Definition Int (i : Z) : string := strconv.Itoa i.
Definition Int64 (i : Z) : string := strconv.FormatInt i.
Definition Int32 (i : Z) : string := strconv.FormatInt (toInt 64 i).
Definition Uint32 (i : Z) : string := strconv.FormatUint (toUint 64 i).
Definition Uint64 (i : Z) : string := strconv.FormatUint i.

(** The formatter the package offers for each integer type, and the
    [strconv] parser that reads a value of that type back. *)
Definition formatScalar (t : IntType) : Z -> string :=
  match t with
  | TInt => Int
  | TInt32 => Int32
  | TInt64 => Int64
  | TUint32 => Uint32
  | TUint64 => Uint64
  end.

Definition parseScalar (t : IntType) (s : string) : option Z :=
  if isSigned t then strconv.ParseInt s (bitSize t)
  else strconv.ParseUint s (bitSize t).

(** ** GetStackInfo *)

Definition GetStackInfo `{Runtime} (stackDepth : Z) : string * string * string :=
  let resultFile := "?" in
  let resultFunc := "?()" in
  let resultLine := "0" in
  match Caller (toInt IntSize (stackDepth + 1)) with
  | Some (pc, file, line) =>
      let resultFile := filepath.Base file in
      let resultLine := Int line in
      match FuncForPC pc with
      | Some name =>
          let dotName := filepath.Ext name in
          (resultFile, strings.TrimLeft dotName "." +:+ "()", resultLine)
      | None => (resultFile, resultFunc, resultLine)
      end
  | None => (resultFile, resultFunc, resultLine)
  end.

(** ** logGenericArgs *)

(** Reading and writing through a map reference. *)
Definition loadArgs (a : loc) (s : State) : Args :=
  default ∅ (heapArgs s !! a).

Definition withHeapArgs (h : gmap loc Args) (s : State) : State :=
  {| heapLogger := heapLogger s; heapArgs := h; stdout := stdout s;
     jsonWriter := jsonWriter s;
     traceLogger := traceLogger s; debugLogger := debugLogger s;
     infoLogger := infoLogger s; warnLogger := warnLogger s;
     errorLogger := errorLogger s; fatalLogger := fatalLogger s;
     loggerExeName := loggerExeName s |}.

(** [args[k] = v]: the map the reference denotes is updated in place, so
    every holder of the reference sees the new entry. *)
Definition assignArg (a : loc) (k v : string) (s : State) : State :=
  withHeapArgs (<[a := <[k := v]> (loadArgs a s)]> (heapArgs s)) s.

(** [jsonWriter.Encode(fullArgs)] writes one object to standard output. *)
Definition Encode (fullArgs : Args) (s : State) : State :=
  {| heapLogger := heapLogger s; heapArgs := heapArgs s;
     stdout := stdout s ++ [fullArgs];
     jsonWriter := jsonWriter s;
     traceLogger := traceLogger s; debugLogger := debugLogger s;
     infoLogger := infoLogger s; warnLogger := warnLogger s;
     errorLogger := errorLogger s; fatalLogger := fatalLogger s;
     loggerExeName := loggerExeName s |}.

(** Lines 75 to 95: the message, and the state after the template was
    processed. *)
Definition renderMessage `{TemplateEngine}
    (msgTemplate : string) (args : option loc) (s : State) : State * string :=
  let msg := msgTemplate in
  match args with
  | Some a =>
      match Parse msgTemplate with
      | Failed templateErr => (assignArg a "_templateErr" templateErr s, msg)
      | Ok t =>
          match Execute t (loadArgs a s) with
          | Failed templateErr => (assignArg a "_templateErr" templateErr s, msg)
          | Ok rendered => (s, rendered)
          end
      end
  | None => (s, msg)
  end.

(** Lines 97 to 106: the map literal. *)
Definition fixedFields `{Runtime}
    (level msgTemplate msg file function line exe : string) : Args :=
  list_to_map
    [ ("msgTemplate", msgTemplate);
      ("msg", msg);
      ("time", Now);
      ("level", level);
      ("file", file);
      ("func", function);
      ("line", line);
      ("process", exe) ].

(** Lines 108 to 110: [for k, v := range args { fullArgs["arg_"+k] = v }];
    ranging over a [nil] map does nothing. *)
Definition addArgs (args : Args) (fullArgs : Args) : Args :=
  map_fold (fun k v acc => <["arg_" +:+ k := v]> acc) fullArgs args.

(** The same loop, taking the entries in the order given.  Go ranges over
    a map in an order of its own choosing. *)
Definition addArgsInOrder (entries : list (string * string)) (fullArgs : Args)
  : Args :=
  foldr (fun kv acc => <["arg_" +:+ kv.1 := kv.2]> acc) fullArgs entries.

(** Lines 112 to 114. *)
Definition addError (err : option string) (fullArgs : Args) : Args :=
  match err with
  | Some e => <["error" := e]> fullArgs
  | None => fullArgs
  end.

(** The [Logger] a pointer denotes; [None] for [nil]. *)
Definition handle (s : State) (p : option loc) : option Logger :=
  p ≫= (fun l => heapLogger s !! l).

(** The call, given the text that [err.Error()] returned ([None] for a
    [nil] error).  [goerror.logGenericArgs] below is the call on the error
    value, whose [Error()] may also panic. *)
Definition logGenericArgs `{Runtime} `{TemplateEngine}
    (logger : option loc) (msgTemplate : string) (err : option string)
    (args : option loc) (stackDepth : Z) (s : State) : State * Outcome :=
  let '(file, function, line) := GetStackInfo (toInt IntSize (stackDepth + 1)) in
  let '(s, msg) := renderMessage msgTemplate args s in
  match handle s logger with
  | None => (s, Panicked NilDereference)
  | Some lg =>
      let fullArgs :=
        fixedFields (Level lg) msgTemplate msg file function line
                    (loggerExeName s) in
      let fullArgs :=
        match args with
        | Some a => addArgs (loadArgs a s) fullArgs
        | None => fullArgs
        end in
      let fullArgs := addError err fullArgs in
      match jsonWriter s with
      | None => (s, Panicked NilDereference)
      | Some _ =>
          let s := Encode fullArgs s in
          if IsFatal lg then (s, Panicked (PanicString msg)) else (s, Returned)
      end
  end.

(** ** The public methods *)

Definition Log `{Runtime} `{TemplateEngine}
    (logger : option loc) (msg : string) (s : State) : State * Outcome :=
  logGenericArgs logger msg None None 1 s.

Definition LogArgs `{Runtime} `{TemplateEngine}
    (logger : option loc) (msgTemplate : string) (args : option loc) (s : State)
  : State * Outcome :=
  logGenericArgs logger msgTemplate None args 1 s.

Definition LogErr `{Runtime} `{TemplateEngine}
    (logger : option loc) (msg : string) (err : option string) (s : State)
  : State * Outcome :=
  logGenericArgs logger msg err None 1 s.

Definition LogErrArgs `{Runtime} `{TemplateEngine}
    (logger : option loc) (msgTemplate : string) (err : option string)
    (args : option loc) (s : State) : State * Outcome :=
  logGenericArgs logger msgTemplate err args 1 s.

(** ** The error argument

    [logGenericArgs] above receives the error as the text that
    [err.Error()] returned, [None] for a [nil] error.  [err.Error()] is a
    call into the caller's code, though, and it need not return: an
    interface that holds a [nil] pointer whose [Error] method has a value
    receiver panics there.  The definitions of this module take the error
    value itself and run [err.Error()] where the source does, at line 113:
    after the receiver was dereferenced and the arguments were added,
    before the record is encoded. *)

Module goerror.

(** An [error] that is not [nil], as far as the package can tell: what its
    [Error()] method does when called. *)
Inductive error :=
| ErrorReturns (text : string)
| ErrorPanics (v : PanicValue).

Definition logGenericArgs `{Runtime} `{TemplateEngine}
    (logger : option loc) (msgTemplate : string) (err : option error)
    (args : option loc) (stackDepth : Z) (s : State) : State * Outcome :=
  let '(file, function, line) := GetStackInfo (toInt IntSize (stackDepth + 1)) in
  let '(s, msg) := renderMessage msgTemplate args s in
  match handle s logger with
  | None => (s, Panicked NilDereference)
  | Some lg =>
      let fullArgs :=
        fixedFields (Level lg) msgTemplate msg file function line
                    (loggerExeName s) in
      let fullArgs :=
        match args with
        | Some a => addArgs (loadArgs a s) fullArgs
        | None => fullArgs
        end in
      let emit (fullArgs : Args) :=
        match jsonWriter s with
        | None => (s, Panicked NilDereference)
        | Some _ =>
            let s := Encode fullArgs s in
            if IsFatal lg then (s, Panicked (PanicString msg)) else (s, Returned)
        end in
      match err with
      | Some (ErrorPanics v) => (s, Panicked v)
      | Some (ErrorReturns text) => emit (<["error" := text]> fullArgs)
      | None => emit fullArgs
      end
  end.

Definition LogErr `{Runtime} `{TemplateEngine}
    (logger : option loc) (msg : string) (err : option error) (s : State)
  : State * Outcome :=
  logGenericArgs logger msg err None 1 s.

Definition LogErrArgs `{Runtime} `{TemplateEngine}
    (logger : option loc) (msgTemplate : string) (err : option error)
    (args : option loc) (s : State) : State * Outcome :=
  logGenericArgs logger msgTemplate err args 1 s.

(** The errors whose [Error()] returns, and the text they give. *)
Definition returns (err : option error) : Prop :=
  forall v, err <> Some (ErrorPanics v).

Definition textOf (err : option error) : option string :=
  match err with
  | Some (ErrorReturns text) => Some text
  | _ => None
  end.

End goerror.

(** A frame inside a closure nested in a closure of [main.main], as the
    runtime names it. *)
Definition closureRuntime : Runtime := {|
  Caller := fun skip =>
    if skip =? 1 then Some (4202496, "/home/dev/app/main.go", 12) else None;
  FuncForPC := fun pc =>
    if pc =? 4202496 then Some "main.main.func1.1" else None;
  Now := "2006-01-02T15:04:05.123456789-07:00";
|}.

(** ** The level registry *)

(** [&Logger{...}]: a new cell, at an address not in use. *)
Definition newLogger (lg : Logger) (h : gmap loc Logger) : loc * gmap loc Logger :=
  let l := fresh (dom h) in (l, <[l := lg]> h).

(** The memory before [init] ran: every package-level variable holds its
    zero value and no [Logger] exists. *)
Definition zeroState (heap : gmap loc Args) : State :=
  {| heapLogger := ∅; heapArgs := heap; stdout := [];
     jsonWriter := None;
     traceLogger := None; debugLogger := None; infoLogger := None;
     warnLogger := None; errorLogger := None; fatalLogger := None;
     loggerExeName := "" |}.

(** [init], with [argv0] for [os.Args[0]]. *)
Definition init (argv0 : string) (s : State) : State :=
  let enc := {| escapeHTML := false; indentPrefix := ""; indentValue := "" |} in
  let h := heapLogger s in
  let '(tr, h) := newLogger {| Level := "trace"; IsFatal := false |} h in
  let '(de, h) := newLogger {| Level := "debug"; IsFatal := false |} h in
  let '(inf, h) := newLogger {| Level := "info"; IsFatal := false |} h in
  let '(wa, h) := newLogger {| Level := "warn"; IsFatal := false |} h in
  let '(er, h) := newLogger {| Level := "error"; IsFatal := false |} h in
  let '(fa, h) := newLogger {| Level := "fatal"; IsFatal := true |} h in
  {| heapLogger := h; heapArgs := heapArgs s; stdout := stdout s;
     jsonWriter := Some enc;
     traceLogger := Some tr; debugLogger := Some de; infoLogger := Some inf;
     warnLogger := Some wa; errorLogger := Some er; fatalLogger := Some fa;
     loggerExeName := filepath.Base argv0 |}.

Definition Trace (s : State) : option loc := traceLogger s.
Definition Debug (s : State) : option loc := debugLogger s.
Definition Info (s : State) : option loc := infoLogger s.
Definition Warn (s : State) : option loc := warnLogger s.
Definition Error (s : State) : option loc := errorLogger s.
Definition Fatal (s : State) : option loc := fatalLogger s.

(** [strings.TrimSuffix(text, "\n")]. *)
Definition trimNewline (text : string) : string :=
  let n := String.length text in
  if String.eqb (substring (n - 1) 1 text) (String "010" "")
  then substring 0 (n - 1) text else text.

(** [JSON(j)]: [encoded] is what [encoder.Encode(j)] produced, the buffer's
    text or the error. *)
Definition JSON `{Runtime} `{TemplateEngine}
    (encoded : result string) (s : State) : State * Outcome * string :=
  match encoded with
  | Ok text => (s, Returned, trimNewline text)
  | Failed e =>
      let '(s, o) :=
        logGenericArgs (Error s) "error serializing value to json" (Some e) None 1 s in
      (s, o, "<error: " +:+ e +:+ ">")
  end.

(** ** A model of the substitution fragment of text/template

    Templates made of literal text and actions of the form [{{.name}}],
    executed on a [map[string]string].  [lex] follows the lexer: text up to
    the left delimiter, then the action up to the right delimiter.  It
    answers [None] for a template with an action outside the fragment
    (anything but a single field), [Some (Failed _)] when the text ends
    inside an action, which the library rejects with an error, and
    [Some (Ok nodes)] otherwise. *)

Module gotemplate.

Inductive Node :=
| TextNode (text : string)
| FieldNode (ident : string).

Definition isLetter (c : ascii) : bool :=
  let n := nat_of_ascii c in
  ((65 <=? n) && (n <=? 90) || (97 <=? n) && (n <=? 122) || (n =? 95))%nat.

Definition isAlphaNumeric (c : ascii) : bool :=
  let n := nat_of_ascii c in
  (isLetter c || (48 <=? n) && (n <=? 57))%nat.

(** A field name: a letter or underscore, then letters, digits and
    underscores. *)
Definition isIdentifier (name : string) : bool :=
  match name with
  | EmptyString => false
  | String c rest => isLetter c && string_forallb isAlphaNumeric rest
  end.

Definition parseAction (body : string) : option Node :=
  match body with
  | String "." name => if isIdentifier name then Some (FieldNode name) else None
  | _ => None
  end.

Definition consText (c : ascii) (r : option (result (list Node)))
  : option (result (list Node)) :=
  match r with
  | Some (Ok (TextNode t :: ns)) => Some (Ok (TextNode (String c t) :: ns))
  | Some (Ok ns) => Some (Ok (TextNode (String c "") :: ns))
  | other => other
  end.

Definition consNode (n : Node) (r : option (result (list Node)))
  : option (result (list Node)) :=
  match r with
  | Some (Ok ns) => Some (Ok (n :: ns))
  | other => other
  end.

Inductive LexState :=
| lexText
| lexInsideAction (body : string).

Definition unclosedAction : string := "template: :1: unclosed action".

Fixpoint lex (input : string) (st : LexState) : option (result (list Node)) :=
  match input with
  | EmptyString =>
      match st with
      | lexText => Some (Ok [])
      | lexInsideAction _ => Some (Failed unclosedAction)
      end
  | String c rest =>
      match st with
      | lexText =>
          match rest with
          | String c' rest' =>
              if Ascii.eqb c "{" && Ascii.eqb c' "{"
              then lex rest' (lexInsideAction "")
              else consText c (lex rest lexText)
          | EmptyString => consText c (lex rest lexText)
          end
      | lexInsideAction body =>
          match rest with
          | String c' rest' =>
              if Ascii.eqb c "}" && Ascii.eqb c' "}"
              then
                match parseAction body with
                | Some n => consNode n (lex rest' lexText)
                | None => None
                end
              else lex rest (lexInsideAction (body +:+ String c ""))
          | EmptyString => lex rest (lexInsideAction (body +:+ String c ""))
          end
      end
  end.

(** Printing a node: a field of a map prints the entry's value; a key that
    is not in the map prints as [<no value>]. *)
Definition evalNode (data : Args) (n : Node) : string :=
  match n with
  | TextNode text => text
  | FieldNode ident => default "<no value>" (data !! ident)
  end.

Fixpoint executeNodes (ns : list Node) (data : Args) : string :=
  match ns with
  | [] => ""
  | n :: ns' => evalNode data n +:+ executeNodes ns' data
  end.

(** [Parse] of the modelled engine.  A template outside the fragment is not
    modelled: it is reported as an error only so that the function is
    total, and no statement below runs the engine on such a template. *)
Definition parse (text : string) : result (list Node) :=
  match lex text lexText with
  | Some r => r
  | None => Failed "template: action outside the modelled fragment"
  end.

#[export] Instance engine : TemplateEngine := {|
  Template := list Node;
  Parse := parse;
  Execute := fun t data => Ok (executeNodes t data);
|}.

(** Templates of the fragment, as they are written: literal text and
    placeholders. *)
Inductive Piece :=
| Lit (text : string)
| Hole (name : string).

Definition showPiece (p : Piece) : string :=
  match p with
  | Lit text => text
  | Hole name => "{{." +:+ name +:+ "}}"
  end.

Fixpoint showPieces (ps : list Piece) : string :=
  match ps with
  | [] => ""
  | p :: ps' => showPiece p +:+ showPieces ps'
  end.

(** Literal text without a brace, and placeholders for names that are in
    the argument set. *)
Definition pieceOk (data : Args) (p : Piece) : bool :=
  match p with
  | Lit text => string_forallb (isNot "{") text
  | Hole name => isIdentifier name && bool_decide (is_Some (data !! name))
  end.

(** The template with every placeholder replaced by the argument's value. *)
Definition fillPiece (data : Args) (p : Piece) : string :=
  match p with
  | Lit text => text
  | Hole name => default "" (data !! name)
  end.

Fixpoint fillPieces (data : Args) (ps : list Piece) : string :=
  match ps with
  | [] => ""
  | p :: ps' => fillPiece data p +:+ fillPieces data ps'
  end.

(** The text a lexed template prints on [data], when lexing succeeded. *)
Definition outputOf (r : option (result (list Node))) (data : Args) : option string :=
  match r with
  | Some (Ok ns) => Some (executeNodes ns data)
  | _ => None
  end.

End gotemplate.

(** ** What the package does over time *)

(** One step of a program that uses the package: a call of one of the four
    methods or of [JSON] (on any receiver, with any arguments, anywhere on
    the stack), or the calling code working on its own argument maps. *)
Inductive step `{TemplateEngine} : State -> State -> Prop :=
| step_Log (rt : Runtime) logger msg s :
    step s (Log logger msg s).1
| step_LogArgs (rt : Runtime) logger msgTemplate args s :
    step s (LogArgs logger msgTemplate args s).1
| step_LogErr (rt : Runtime) logger msg err s :
    step s (LogErr logger msg err s).1
| step_LogErrArgs (rt : Runtime) logger msgTemplate err args s :
    step s (LogErrArgs logger msgTemplate err args s).1
| step_JSON (rt : Runtime) encoded s :
    step s (JSON encoded s).1.1
| step_caller heap s :
    step s (withHeapArgs heap s).

(** The states a program can be in: [init] runs first, on a memory where
    the package's variables hold their zero values. *)
Inductive reachable `{TemplateEngine} (argv0 : string) : State -> Prop :=
| reachable_init heap : reachable argv0 (init argv0 (zeroState heap))
| reachable_step s s' : reachable argv0 s -> step s s' -> reachable argv0 s'.

(** The names of the fixed fields of a record. *)
Definition fixedNames : list string :=
  ["msg"; "msgTemplate"; "time"; "level"; "file"; "func"; "line"; "process";
   "error"].

(** The dynamic fields of a record: those whose name carries the argument
    prefix. *)
Definition dynamicFields (record : Args) : Args :=
  filter (fun kv => String.prefix "arg_" kv.1 = true) record.

(** The error of processing a template on [data], if any: the one of
    [Parse], else the one of [Execute]. *)
Definition templateError `{TemplateEngine} (msgTemplate : string) (data : Args)
  : option string :=
  match Parse msgTemplate with
  | Failed e => Some e
  | Ok t =>
      match Execute t data with
      | Failed e => Some e
      | Ok _ => None
      end
  end.

(** The part of the memory that belongs to the package: the [Logger]
    cells and the package-level variables. *)
Definition samePackage (s s' : State) : Prop :=
  heapLogger s' = heapLogger s /\
  jsonWriter s' = jsonWriter s /\
  traceLogger s' = traceLogger s /\
  debugLogger s' = debugLogger s /\
  infoLogger s' = infoLogger s /\
  warnLogger s' = warnLogger s /\
  errorLogger s' = errorLogger s /\
  fatalLogger s' = fatalLogger s /\
  loggerExeName s' = loggerExeName s.

(** ** The registry, as [init] leaves it *)

(** The six handles, in the order of the accessors. *)
Definition levelHandles : list Logger :=
  [ {| Level := "trace"; IsFatal := false |};
    {| Level := "debug"; IsFatal := false |};
    {| Level := "info"; IsFatal := false |};
    {| Level := "warn"; IsFatal := false |};
    {| Level := "error"; IsFatal := false |};
    {| Level := "fatal"; IsFatal := true |} ].

(** The six accessors, in the order of the source. *)
Definition accessors : list (State -> option loc) :=
  [Trace; Debug; Info; Warn; Error; Fatal].

(** Where [init] puts the handles: it allocates them one after the other
    in a heap without any [Logger]. *)
Definition registry : gmap loc Logger :=
  list_to_map (zip [0; 1; 2; 3; 4; 5]%nat levelHandles).

Definition registered (s : State) : Prop :=
  heapLogger s = registry /\
  (fun get => get s) <$> accessors =
    [Some 0; Some 1; Some 2; Some 3; Some 4; Some 5]%nat /\
  is_Some (jsonWriter s).

(** ** Worked example: one program state and one stack *)

Definition exampleRuntime : Runtime := {|
  Caller := fun skip =>
    if skip =? 3 then Some (4198400, "/home/dev/app/server/main.go", 59) else None;
  FuncForPC := fun pc =>
    if pc =? 4198400 then Some "github.com/acme/app/server.(*Server).ServeGrpc"
    else None;
  Now := "2006-01-02T15:04:05.123456789-07:00";
|}.

Definition exampleHeap : gmap loc Args :=
  {[ 7%nat := {[ "user" := "alice"; "count" := "3" ]} ]}.

Definition exampleState : State :=
  init "/usr/local/bin/sms-auth-service" (zeroState exampleHeap).

(** ** Vocabulary for the further properties *)

(** The location fields of [record] describe the frame that
    [runtime.Caller(skip)] reports from inside [GetStackInfo]. *)
Definition reportsFrame `{Runtime} (skip : Z) (record : Args) : Prop :=
  match Caller skip with
  | Some (pc, file, line) =>
      record !! "file" = Some (filepath.Base file) /\
      record !! "func" =
        Some (match FuncForPC pc with
              | Some name => strings.TrimLeft (filepath.Ext name) "." +:+ "()"
              | None => "?()"
              end) /\
      record !! "line" = Some (Int line)
  | None =>
      record !! "file" = Some "?" /\
      record !! "func" = Some "?()" /\
      record !! "line" = Some "0"
  end.

(** The names of the fields that every record has. *)
Definition alwaysPresent : list string :=
  ["msgTemplate"; "msg"; "time"; "level"; "file"; "func"; "line"; "process"].

(** What every record on standard output looks like: the eight fixed
    fields are there, [process] is the base name of the executable, and
    [level] is the name of one of the six handles. *)
Definition wellFormedRecord (argv0 : string) (record : Args) : Prop :=
  (forall name, name ∈ alwaysPresent -> is_Some (record !! name)) /\
  record !! "process" = Some (filepath.Base argv0) /\
  exists lg, lg ∈ levelHandles /\ record !! "level" = Some (Level lg).

(** The encoder as [init] configures it. *)
Definition initialEncoder : Encoder :=
  {| escapeHTML := false; indentPrefix := ""; indentValue := "" |}.

(** The bytes from index [n] on are neither separators nor dots. *)
Definition plainFrom (path : string) (n : nat) : Prop :=
  forall j c, (n <= j)%nat -> String.get j path = Some c ->
              isNot "/" c = true /\ isNot "." c = true.

(** A decimal digit. *)
Definition isDigit (c : ascii) : bool :=
  let n := nat_of_ascii c in ((48 <=? n) && (n <=? 57))%nat.

(** A program state in which the caller holds an empty map at address 8. *)
Definition emptyMapState : State :=
  init "/usr/local/bin/sms-auth-service" (zeroState {[ 8%nat := ∅ ]}).

(** * Properties *)

(** ** Strings: lemmas *)

Section string_facts.

Lemma string_app_nil_l (s : string) : "" +:+ s = s.
Proof. reflexivity. Qed.

Lemma string_app_cons (c : ascii) (s1 s2 : string) :
  String c s1 +:+ s2 = String c (s1 +:+ s2).
Proof. reflexivity. Qed.

Lemma string_app_assoc (s1 s2 s3 : string) :
  (s1 +:+ s2) +:+ s3 = s1 +:+ (s2 +:+ s3).
Proof.
  induction s1 as [| c s1 IH]; [done |].
  by rewrite !string_app_cons, IH.
Qed.

Lemma string_app_nil_r (s : string) : s +:+ "" = s.
Proof.
  induction s as [| c s IH]; [done |].
  by rewrite string_app_cons, IH.
Qed.

Lemma string_length_app (s1 s2 : string) :
  String.length (s1 +:+ s2) = (String.length s1 + String.length s2)%nat.
Proof.
  induction s1 as [| c s1 IH]; [done |].
  rewrite string_app_cons. simpl. by rewrite IH.
Qed.

End string_facts.

(** ** Decimal formatting: lemmas *)

Section strconv_facts.
Import strconv.

Lemma nat_of_digitChar d :
  0 <= d <= 9 -> Z.of_nat (nat_of_ascii (digitChar d)) - 48 = d.
Proof.
  intros Hd. unfold digitChar.
  rewrite nat_ascii_embedding by lia. lia.
Qed.

Lemma digits_small u acc : u < 10 -> digits u acc = String (digitChar u) acc.
Proof.
  intros Hu. rewrite digits_equation_1. simpl.
  destruct (Z_lt_dec u 10); [done | lia].
Qed.

Lemma digits_step u acc :
  10 <= u -> digits u acc = digits (u / 10) (String (digitChar (u mod 10)) acc).
Proof.
  intros Hu. rewrite digits_equation_1. simpl.
  destruct (Z_lt_dec u 10); [lia | done].
Qed.

Lemma digits_acc u : 0 <= u -> forall acc, digits u acc = digits u "" +:+ acc.
Proof.
  intros Hu. pattern u. apply Zlt_0_ind; [| done]. clear u Hu.
  intros u IH Hu acc.
  destruct (Z_lt_dec u 10) as [Hlt | Hge].
  - by rewrite !digits_small.
  - assert (0 <= u / 10 < u)
      by (split; [apply Z.div_pos | apply Z.div_lt]; lia).
    rewrite (digits_step u acc), (digits_step u "") by lia.
    rewrite (IH (u / 10) ltac:(lia) (String _ acc)).
    rewrite (IH (u / 10) ltac:(lia) (String _ "")).
    by rewrite string_app_assoc.
Qed.

Lemma parseDigits_app s1 s2 n :
  parseDigits (s1 +:+ s2) n =
  match parseDigits s1 n with Some m => parseDigits s2 m | None => None end.
Proof.
  revert n. induction s1 as [| c s1 IH]; intros n; [done |].
  rewrite string_app_cons. simpl.
  destruct (_ && _); [apply IH | done].
Qed.

Lemma parseDigits_digits u : 0 <= u -> parseDigits (digits u "") 0 = Some u.
Proof.
  intros Hu. pattern u. apply Zlt_0_ind; [| done]. clear u Hu.
  intros u IH Hu.
  destruct (Z_lt_dec u 10) as [Hlt | Hge].
  - rewrite digits_small by done. simpl.
    rewrite nat_of_digitChar by lia.
    replace ((0 <=? u) && (u <=? 9)) with true; [done |].
    symmetry. apply andb_true_iff. lia.
  - assert (0 <= u / 10 < u)
      by (split; [apply Z.div_pos | apply Z.div_lt]; lia).
    pose proof (Z.mod_pos_bound u 10 ltac:(lia)) as Hm.
    rewrite digits_step, digits_acc by lia.
    rewrite parseDigits_app, IH by lia. simpl.
    rewrite nat_of_digitChar by lia.
    replace ((0 <=? u mod 10) && (u mod 10 <=? 9)) with true
      by (symmetry; apply andb_true_iff; lia).
    f_equal. pose proof (Z.div_mod u 10 ltac:(lia)). lia.
Qed.

(** The first character written by the digit loop is a digit, so the
    output is never empty and never starts with a sign. *)
Lemma digits_head u :
  0 <= u -> exists d s, 0 <= d <= 9 /\ digits u "" = String (digitChar d) s.
Proof.
  intros Hu. pattern u. apply Zlt_0_ind; [| done]. clear u Hu.
  intros u IH Hu.
  destruct (Z_lt_dec u 10) as [Hlt | Hge].
  - exists u, "". split; [lia |]. by rewrite digits_small.
  - assert (0 <= u / 10 < u)
      by (split; [apply Z.div_pos | apply Z.div_lt]; lia).
    destruct (IH (u / 10) ltac:(lia)) as (d & s & Hd & Hs).
    exists d, (s +:+ String (digitChar (u mod 10)) "").
    split; [done |].
    by rewrite digits_step, digits_acc, Hs by lia.
Qed.

Lemma digitChar_not_sign d :
  0 <= d <= 9 ->
  Ascii.eqb (digitChar d) "-" = false /\ Ascii.eqb (digitChar d) "+" = false.
Proof.
  intros Hd.
  assert (d = 0 \/ d = 1 \/ d = 2 \/ d = 3 \/ d = 4 \/ d = 5 \/ d = 6 \/
          d = 7 \/ d = 8 \/ d = 9) as Hc by lia.
  repeat (destruct Hc as [-> | Hc]; [by vm_compute |]). subst. by vm_compute.
Qed.

Lemma ParseUint_digits u bits :
  0 <= u < 2 ^ bits -> ParseUint (digits u "") bits = Some u.
Proof.
  intros Hu. unfold ParseUint.
  destruct (digits_head u ltac:(lia)) as (d & s & _ & Hs).
  rewrite parseDigits_digits by lia.
  rewrite Hs. destruct (Z.ltb_spec u (2 ^ bits)); [done | lia].
Qed.

Lemma ParseUint_FormatUint u bits :
  0 <= u < 2 ^ bits -> ParseUint (FormatUint u) bits = Some u.
Proof. apply ParseUint_digits. Qed.

Lemma ParseInt_minus s bits :
  ParseInt (String "-" s) bits =
  match ParseUint s 64 with
  | Some un => if 2 ^ (bits - 1) <? un then None else Some (- un)
  | None => None
  end.
Proof. reflexivity. Qed.

Lemma ParseInt_unsigned c s bits :
  Ascii.eqb c "-" = false -> Ascii.eqb c "+" = false ->
  ParseInt (String c s) bits =
  match ParseUint (String c s) 64 with
  | Some un => if 2 ^ (bits - 1) <=? un then None else Some un
  | None => None
  end.
Proof. intros Hm Hp. unfold ParseInt. by rewrite Hm, Hp. Qed.

Lemma toUint_neg i : - 2 ^ 63 <= i < 0 -> toUint 64 (- toUint 64 i) = - i.
Proof.
  intros Hi. unfold toUint.
  assert (2 ^ 64 = 2 * 2 ^ 63) as H64 by done.
  assert (i mod 2 ^ 64 = i + 2 ^ 64) as ->
    by (symmetry; apply (Z.mod_unique i (2 ^ 64) (-1)); lia).
  symmetry. apply (Z.mod_unique _ (2 ^ 64) (-1)); lia.
Qed.

Lemma ParseInt_FormatInt i bits :
  0 < bits <= 64 ->
  - 2 ^ (bits - 1) <= i < 2 ^ (bits - 1) ->
  ParseInt (FormatInt i) bits = Some i.
Proof.
  intros Hb Hi.
  assert (2 ^ (bits - 1) <= 2 ^ 63) as H63
    by (apply Z.pow_le_mono_r; lia).
  assert (2 ^ 64 = 2 * 2 ^ 63) as H64 by done.
  unfold FormatInt, formatBits.
  destruct (Z.ltb_spec i 0) as [Hneg | Hpos].
  - rewrite toUint_neg by lia.
    rewrite ParseInt_minus, ParseUint_digits by lia.
    destruct (Z.ltb_spec (2 ^ (bits - 1)) (- i)); [lia |].
    f_equal. lia.
  - assert (toUint 64 i = i) as ->
      by (unfold toUint; apply Z.mod_small; lia).
    destruct (digits_head i ltac:(lia)) as (d & s & Hd & Hs).
    destruct (digitChar_not_sign d Hd) as [Hm Hp].
    rewrite Hs, ParseInt_unsigned by done.
    rewrite <- Hs, ParseUint_digits by lia.
    destruct (Z.leb_spec (2 ^ (bits - 1)) i); [lia | done].
Qed.

Lemma toInt_id w v : 0 < w -> - 2 ^ (w - 1) <= v < 2 ^ (w - 1) -> toInt w v = v.
Proof.
  intros Hw Hv. unfold toInt.
  assert (2 ^ w = 2 * 2 ^ (w - 1)) as Hp
    by (rewrite <- Z.pow_succ_r by lia; f_equal; lia).
  rewrite Z.mod_small; lia.
Qed.

Lemma toUint_id w v : 0 <= v < 2 ^ w -> toUint w v = v.
Proof. intros Hv. by apply Z.mod_small. Qed.

End strconv_facts.

(** ** The scalar formatters round-trip *)

Lemma inRange_bounds (t : IntType) (v : Z) :
  inRange t v ->
  if isSigned t
  then - 2 ^ (bitSize t - 1) <= v < 2 ^ (bitSize t - 1)
  else 0 <= v < 2 ^ bitSize t.
Proof. unfold inRange, minValue, maxValue. destruct (isSigned t); lia. Qed.

Lemma bitSize_bounds (t : IntType) : 0 < bitSize t <= 64.
Proof. destruct t; unfold bitSize, IntSize; lia. Qed.

(** C9. For every value of each supported integer type (int, int32, int64,
    uint32, uint64), the extreme values included, formatting the value with
    the package's formatter and parsing the decimal string back gives the
    value again. *)
Theorem scalar_format_parse_roundtrip (t : IntType) (v : Z) :
  inRange t v -> parseScalar t (formatScalar t v) = Some v.
Proof.
  intros Hv. pose proof (inRange_bounds t v Hv) as Hb.
  pose proof (bitSize_bounds t) as Hw.
  unfold parseScalar.
  destruct t; simpl in Hb |- *;
    unfold Int, Int32, Int64, Uint32, Uint64, strconv.Itoa, IntSize in *.
  - rewrite toInt_id by lia. apply ParseInt_FormatInt; lia.
  - rewrite toInt_id by lia. apply ParseInt_FormatInt; lia.
  - apply ParseInt_FormatInt; lia.
  - rewrite toUint_id by lia. apply ParseUint_FormatUint; lia.
  - apply ParseUint_FormatUint; lia.
Qed.

Lemma scalar_format_parse_roundtrip_witness :
  parseScalar TInt (formatScalar TInt (- 9223372036854775808))
    = Some (- 9223372036854775808) /\
  parseScalar TInt32 (formatScalar TInt32 (- 2147483648))
    = Some (- 2147483648) /\
  parseScalar TInt64 (formatScalar TInt64 9223372036854775807)
    = Some 9223372036854775807 /\
  parseScalar TUint32 (formatScalar TUint32 4294967295)
    = Some 4294967295 /\
  parseScalar TUint64 (formatScalar TUint64 18446744073709551615)
    = Some 18446744073709551615.
Proof.
  refine (conj _ (conj _ (conj _ (conj _ _))));
    apply scalar_format_parse_roundtrip;
    unfold inRange, minValue, maxValue, bitSize, IntSize; simpl; lia.
Defined.

(** ** The record a call assembles *)

Lemma arg_prefix_unfold (k : string) :
  "arg_" +:+ k = String "a" (String "r" (String "g" (String "_" k))).
Proof. reflexivity. Qed.

Lemma arg_prefix_inj (k1 k2 : string) : "arg_" +:+ k1 = "arg_" +:+ k2 -> k1 = k2.
Proof. rewrite !arg_prefix_unfold. congruence. Qed.

Lemma arg_prefix_has_prefix (k : string) : String.prefix "arg_" ("arg_" +:+ k) = true.
Proof. rewrite arg_prefix_unfold. by destruct k. Qed.

Lemma string_prefix_app (s1 s2 : string) :
  String.prefix s1 s2 = true -> exists k, s2 = s1 +:+ k.
Proof.
  revert s2. induction s1 as [| a s1 IH]; intros s2 Hp.
  - by exists s2.
  - destruct s2 as [| b s2]; [discriminate Hp |].
    change (String.prefix (String a s1) (String b s2))
      with (if ascii_dec a b then String.prefix s1 s2 else false) in Hp.
    destruct (ascii_dec a b) as [-> | _]; [| discriminate Hp].
    destruct (IH s2 Hp) as [k ->]. by exists k.
Qed.

Lemma has_prefix_arg (key : string) :
  String.prefix "arg_" key = true -> exists k, key = "arg_" +:+ k.
Proof. apply string_prefix_app. Qed.

Lemma arg_prefix_not_fixed (k : string) : "arg_" +:+ k ∉ fixedNames.
Proof.
  rewrite arg_prefix_unfold. unfold fixedNames.
  rewrite !elem_of_cons, elem_of_nil. intros H.
  repeat (destruct H as [H | H]; [discriminate H |]). done.
Qed.

Lemma fixed_not_prefixed (name : string) :
  name ∈ fixedNames -> String.prefix "arg_" name = false.
Proof.
  unfold fixedNames. rewrite !elem_of_cons, elem_of_nil. intros H.
  repeat (destruct H as [-> | H]; [reflexivity |]). done.
Qed.

(** The range loop: every argument lands under its prefixed name, and no
    other field is touched, whatever the order of the iteration. *)
Lemma addArgs_lookup (args fullArgs : Args) :
  (forall k, addArgs args fullArgs !! ("arg_" +:+ k) =
             match args !! k with
             | Some v => Some v
             | None => fullArgs !! ("arg_" +:+ k)
             end) /\
  (forall key, String.prefix "arg_" key = false ->
               addArgs args fullArgs !! key = fullArgs !! key).
Proof.
  unfold addArgs.
  apply (map_fold_weak_ind
           (fun r (m : Args) =>
              (forall k, r !! ("arg_" +:+ k) =
                         match m !! k with
                         | Some v => Some v
                         | None => fullArgs !! ("arg_" +:+ k)
                         end) /\
              (forall key, String.prefix "arg_" key = false ->
                           r !! key = fullArgs !! key))).
  - split; [intros k; by rewrite lookup_empty | done].
  - intros i x m r Hi [IHa IHo]. split.
    + intros k. destruct (decide (k = i)) as [-> | Hne].
      * by rewrite !lookup_insert_eq.
      * rewrite !lookup_insert_ne; [apply IHa | done |].
        intros Heq. by apply arg_prefix_inj in Heq.
    + intros key Hkey. rewrite lookup_insert_ne; [by apply IHo |].
      intros <-. by rewrite arg_prefix_has_prefix in Hkey.
Qed.

Lemma addArgsInOrder_lookup (entries : list (string * string)) (fullArgs : Args) :
  (forall k, addArgsInOrder entries fullArgs !! ("arg_" +:+ k) =
             match (list_to_map entries : Args) !! k with
             | Some v => Some v
             | None => fullArgs !! ("arg_" +:+ k)
             end) /\
  (forall key, String.prefix "arg_" key = false ->
               addArgsInOrder entries fullArgs !! key = fullArgs !! key).
Proof.
  induction entries as [| [k0 v0] entries [IHa IHo]]; simpl.
  - split; [intros k; by rewrite lookup_empty | done].
  - split.
    + intros k. destruct (decide (k = k0)) as [-> | Hne].
      * by rewrite !lookup_insert_eq.
      * rewrite !lookup_insert_ne; [apply IHa | done |].
        intros Heq. by apply arg_prefix_inj in Heq.
    + intros key Hkey. rewrite lookup_insert_ne; [by apply IHo |].
      intros <-. by rewrite arg_prefix_has_prefix in Hkey.
Qed.

(** X15. The record does not depend on the order in which the range loop
    meets the arguments: adding the entries of the map in any order gives
    the same fields. *)
Lemma addArgs_any_order (args fullArgs : Args) (entries : list (string * string)) :
  entries ≡ₚ map_to_list args ->
  addArgsInOrder entries fullArgs = addArgs args fullArgs.
Proof.
  intros Hperm.
  assert ((list_to_map entries : Args) = args) as Hmap.
  { rewrite <- (list_to_map_to_list args). apply list_to_map_proper; [| done].
    rewrite Hperm. apply NoDup_fst_map_to_list. }
  destruct (addArgsInOrder_lookup entries fullArgs) as [Ha Ho].
  destruct (addArgs_lookup args fullArgs) as [Ha' Ho'].
  apply map_eq. intros key.
  destruct (String.prefix "arg_" key) eqn:Hp.
  - apply has_prefix_arg in Hp as [k ->]. by rewrite Ha, Ha', Hmap.
  - by rewrite Ho, Ho'.
Qed.

Lemma addArgs_lookup_arg (args fullArgs : Args) (k : string) :
  String.prefix "arg_" ("arg_" +:+ k) = true ->
  addArgs args fullArgs !! ("arg_" +:+ k) =
  match args !! k with
  | Some v => Some v
  | None => fullArgs !! ("arg_" +:+ k)
  end.
Proof. intros _. apply addArgs_lookup. Qed.

Lemma addArgs_lookup_other (args fullArgs : Args) (key : string) :
  String.prefix "arg_" key = false ->
  addArgs args fullArgs !! key = fullArgs !! key.
Proof. apply addArgs_lookup. Qed.

Lemma addError_lookup (err : option string) (fullArgs : Args) (key : string) :
  addError err fullArgs !! key =
  if decide (key = "error")
  then match err with Some e => Some e | None => fullArgs !! key end
  else fullArgs !! key.
Proof.
  unfold addError. destruct err as [e |].
  - case_decide as Hk; [subst; by rewrite lookup_insert_eq |].
    by rewrite lookup_insert_ne.
  - by case_decide.
Qed.

Section record.
Context `{rt : Runtime}.

Lemma fixedFields_lookup (level msgTemplate msg file function line exe key : string) :
  fixedFields level msgTemplate msg file function line exe !! key =
  if decide (key = "msgTemplate") then Some msgTemplate
  else if decide (key = "msg") then Some msg
  else if decide (key = "time") then Some Now
  else if decide (key = "level") then Some level
  else if decide (key = "file") then Some file
  else if decide (key = "func") then Some function
  else if decide (key = "line") then Some line
  else if decide (key = "process") then Some exe
  else None.
Proof.
  unfold fixedFields. simpl.
  repeat (case_decide;
          [subst; by rewrite ?lookup_insert_eq | rewrite lookup_insert_ne by done]).
  apply lookup_empty.
Qed.

Lemma fixedFields_no_arg (level msgTemplate msg file function line exe k : string) :
  fixedFields level msgTemplate msg file function line exe !! ("arg_" +:+ k) = None.
Proof.
  rewrite fixedFields_lookup, arg_prefix_unfold.
  repeat (case_decide; [discriminate |]). done.
Qed.

Lemma fixedFields_no_error (level msgTemplate msg file function line exe : string) :
  fixedFields level msgTemplate msg file function line exe !! "error" = None.
Proof.
  rewrite fixedFields_lookup.
  repeat (case_decide; [discriminate |]). done.
Qed.

End record.

(** ** What a call changes *)

Lemma samePackage_refl (s : State) : samePackage s s.
Proof. by repeat split. Qed.

Lemma samePackage_trans (s1 s2 s3 : State) :
  samePackage s1 s2 -> samePackage s2 s3 -> samePackage s1 s3.
Proof. unfold samePackage. intros H1 H2. intuition congruence. Qed.

Lemma samePackage_withHeapArgs (h : gmap loc Args) (s : State) :
  samePackage s (withHeapArgs h s).
Proof. by repeat split. Qed.

Lemma samePackage_Encode (fullArgs : Args) (s : State) :
  samePackage s (Encode fullArgs s).
Proof. by repeat split. Qed.

Lemma samePackage_handle (s s' : State) (p : option loc) :
  samePackage s s' -> handle s' p = handle s p.
Proof. intros (Hh & _). unfold handle. by rewrite Hh. Qed.

Section calls.
Context `{rt : Runtime} `{eng : TemplateEngine}.

Lemma renderMessage_samePackage (msgTemplate : string) (args : option loc) (s : State) :
  samePackage s (renderMessage msgTemplate args s).1.
Proof.
  unfold renderMessage. destruct args as [a |]; [| apply samePackage_refl].
  destruct (Parse msgTemplate) as [t | e]; [| apply samePackage_withHeapArgs].
  destruct (Execute t (loadArgs a s)) as [m | e];
    [apply samePackage_refl | apply samePackage_withHeapArgs].
Qed.

Lemma renderMessage_stdout (msgTemplate : string) (args : option loc) (s : State) :
  stdout (renderMessage msgTemplate args s).1 = stdout s.
Proof.
  unfold renderMessage. destruct args as [a |]; [| done].
  destruct (Parse msgTemplate) as [t | e]; [| done].
  by destruct (Execute t (loadArgs a s)).
Qed.

(** The call, once the receiver is known to be a live [Logger] and the
    encoder to be bound. *)
Lemma logGenericArgs_unfold (logger : option loc) (lg : Logger)
    (msgTemplate : string) (err : option string) (args : option loc)
    (stackDepth : Z) (s : State) :
  handle s logger = Some lg ->
  is_Some (jsonWriter s) ->
  logGenericArgs logger msgTemplate err args stackDepth s =
  let st := GetStackInfo (toInt IntSize (stackDepth + 1)) in
  let sm := renderMessage msgTemplate args s in
  let fixed :=
    fixedFields (Level lg) msgTemplate sm.2 st.1.1 st.1.2 st.2 (loggerExeName s) in
  let fullArgs :=
    match args with
    | Some a => addArgs (loadArgs a sm.1) fixed
    | None => fixed
    end in
  (Encode (addError err fullArgs) sm.1,
   if IsFatal lg then Panicked (PanicString sm.2) else Returned).
Proof.
  intros Hlg [enc Henc]. unfold logGenericArgs.
  destruct (GetStackInfo _) as [[file function] line].
  pose proof (renderMessage_samePackage msgTemplate args s) as Hsame.
  destruct (renderMessage msgTemplate args s) as [s1 msg]. simpl in *.
  rewrite (samePackage_handle _ _ _ Hsame), Hlg.
  destruct Hsame as (_ & -> & _ & _ & _ & _ & _ & _ & ->). rewrite Henc.
  by destruct (IsFatal lg).
Qed.

(** Everything the later theorems need to know about one call. *)
Lemma logGenericArgs_record (logger : option loc) (lg : Logger)
    (msgTemplate : string) (err : option string) (args : option loc)
    (stackDepth : Z) (s : State) :
  handle s logger = Some lg ->
  is_Some (jsonWriter s) ->
  let r := logGenericArgs logger msgTemplate err args stackDepth s in
  let sm := renderMessage msgTemplate args s in
  let st := GetStackInfo (toInt IntSize (stackDepth + 1)) in
  exists record,
    r.1 = Encode record sm.1 /\
    r.2 = (if IsFatal lg then Panicked (PanicString sm.2) else Returned) /\
    record !! "error" = err /\
    (forall k, record !! ("arg_" +:+ k) =
               match args with
               | Some a => loadArgs a sm.1 !! k
               | None => None
               end) /\
    (forall key, String.prefix "arg_" key = false -> key <> "error" ->
                 record !! key =
                 fixedFields (Level lg) msgTemplate sm.2 st.1.1 st.1.2 st.2
                             (loggerExeName s) !! key).
Proof.
  intros Hlg Henc r sm st. subst r.
  rewrite (logGenericArgs_unfold _ _ _ _ _ _ _ Hlg Henc). cbv zeta.
  fold sm st. eexists. split; [reflexivity |]. split; [reflexivity |].
  split; [| split].
  - rewrite addError_lookup. rewrite decide_True by done.
    destruct err as [e |]; [done |].
    destruct args as [a |].
    + rewrite addArgs_lookup_other by done. apply fixedFields_no_error.
    + apply fixedFields_no_error.
  - intros k. rewrite addError_lookup.
    rewrite decide_False by (rewrite arg_prefix_unfold; discriminate).
    destruct args as [a |].
    + rewrite addArgs_lookup_arg by apply arg_prefix_has_prefix.
      destruct (loadArgs a sm.1 !! k); [done | apply fixedFields_no_arg].
    + apply fixedFields_no_arg.
  - intros key Hkey Hne. rewrite addError_lookup, decide_False by done.
    destruct args as [a |]; [by apply addArgs_lookup_other | done].
Qed.

End calls.

(** ** The level registry is fixed by [init] *)

Lemma registered_samePackage (s s' : State) :
  samePackage s s' -> registered s -> registered s'.
Proof.
  intros (Hh & Hj & Ht & Hd & Hi & Hw & He & Hf & _) (Hr & Ha & Hjs).
  unfold registered, accessors, Trace, Debug, Info, Warn, Error, Fatal in *.
  simpl in *. rewrite Hh, Hj, Ht, Hd, Hi, Hw, He, Hf. done.
Qed.

Lemma init_registered (argv0 : string) (heap : gmap loc Args) :
  registered (init argv0 (zeroState heap)).
Proof. split; [| split]; [by vm_compute | by vm_compute | by eexists]. Qed.

Section registry.
Context `{eng : TemplateEngine}.

Lemma logGenericArgs_samePackage (rt : Runtime) (logger : option loc)
    (msgTemplate : string) (err : option string) (args : option loc)
    (stackDepth : Z) (s : State) :
  samePackage s (logGenericArgs logger msgTemplate err args stackDepth s).1.
Proof.
  unfold logGenericArgs.
  destruct (GetStackInfo _) as [[file function] line].
  pose proof (renderMessage_samePackage msgTemplate args s) as Hsame.
  destruct (renderMessage msgTemplate args s) as [s1 msg]. simpl in Hsame.
  destruct (handle s1 logger) as [lg |]; [| done].
  destruct (jsonWriter s1); [| done].
  destruct (IsFatal lg); simpl;
    (eapply samePackage_trans; [exact Hsame | apply samePackage_Encode]).
Qed.

Lemma step_samePackage (s s' : State) : step s s' -> samePackage s s'.
Proof.
  intros Hstep. destruct Hstep;
    unfold Log, LogArgs, LogErr, LogErrArgs, JSON;
    try apply logGenericArgs_samePackage;
    try apply samePackage_withHeapArgs.
  destruct encoded as [text | e]; [apply samePackage_refl |].
  pose proof (logGenericArgs_samePackage rt (Error s)
                "error serializing value to json" (Some e) None 1 s) as Hs.
  by destruct (logGenericArgs _ _ _ _ _ _).
Qed.

Lemma reachable_registered (argv0 : string) (s : State) :
  reachable argv0 s -> registered s.
Proof.
  induction 1 as [heap | s s' _ IH Hstep].
  - apply init_registered.
  - eapply registered_samePackage; [by apply step_samePackage | done].
Qed.

Lemma reachable_jsonWriter (argv0 : string) (s : State) :
  reachable argv0 s -> is_Some (jsonWriter s).
Proof. intros Hr. by destruct (reachable_registered _ _ Hr) as (_ & _ & ?). Qed.

End registry.

(** ** Theorems about [logGenericArgs] *)

Lemma loadArgs_assignArg (a : loc) (k v : string) (s : State) :
  loadArgs a (assignArg a k v s) = <[k := v]> (loadArgs a s).
Proof. unfold loadArgs at 1, assignArg. simpl. by rewrite lookup_insert_eq. Qed.

Lemma stdout_Encode (record : Args) (s : State) :
  stdout (Encode record s) = (stdout s ++ [record])%list.
Proof. reflexivity. Qed.

(** A call with an error whose [Error()] returns is the call with the text
    it returned. *)
Lemma goerror_logGenericArgs_returns (rt : Runtime) (eng : TemplateEngine)
    (logger : option loc) (msgTemplate : string) (err : option goerror.error)
    (args : option loc) (stackDepth : Z) (s : State) :
  goerror.returns err ->
  goerror.logGenericArgs logger msgTemplate err args stackDepth s =
  logGenericArgs logger msgTemplate (goerror.textOf err) args stackDepth s.
Proof.
  intros Hret. unfold goerror.logGenericArgs, logGenericArgs.
  destruct (GetStackInfo _) as [[file function] line].
  destruct (renderMessage msgTemplate args s) as [s1 msg].
  destruct (handle s1 logger) as [lg |]; [| done].
  destruct err as [[text | v] |]; [done | by destruct (Hret v) | done].
Qed.

(** A call with an error whose [Error()] panics ends there: after the
    template was processed and the receiver dereferenced, before anything
    is written. *)
Lemma goerror_logGenericArgs_panics (rt : Runtime) (eng : TemplateEngine)
    (logger : option loc) (lg : Logger) (msgTemplate : string)
    (v : PanicValue) (args : option loc) (stackDepth : Z) (s : State) :
  handle s logger = Some lg ->
  goerror.logGenericArgs logger msgTemplate (Some (goerror.ErrorPanics v))
    args stackDepth s =
  ((renderMessage msgTemplate args s).1, Panicked v).
Proof.
  intros Hlg. unfold goerror.logGenericArgs.
  destruct (GetStackInfo _) as [[file function] line].
  pose proof (renderMessage_samePackage msgTemplate args s) as Hsame.
  destruct (renderMessage msgTemplate args s) as [s1 msg]. simpl in *.
  by rewrite (samePackage_handle _ _ _ Hsame), Hlg.
Qed.

(** C1, as the code has it. Every logging call through a level handle,
    with an error that is [nil] or whose [Error()] returns, writes exactly
    one record first; then it panics with the rendered message as the
    reason if and only if the handle's fatal flag is set, and through a
    non-fatal handle it returns normally, whatever the template, the
    arguments and the error's text are. *)
Theorem log_emits_then_terminates_iff_fatal
    (rt : Runtime) (eng : TemplateEngine) (argv0 : string) (s : State)
    (logger : option loc) (lg : Logger) (msgTemplate : string)
    (err : option goerror.error) (args : option loc) (stackDepth : Z) :
  reachable argv0 s ->
  handle s logger = Some lg ->
  goerror.returns err ->
  let r := goerror.logGenericArgs logger msgTemplate err args stackDepth s in
  let msg := (renderMessage msgTemplate args s).2 in
  (exists record,
      stdout r.1 = (stdout s ++ [record])%list /\ record !! "msg" = Some msg) /\
  (r.2 = Panicked (PanicString msg) <-> IsFatal lg = true) /\
  (r.2 = Returned <-> IsFatal lg = false).
Proof.
  intros Hreach Hlg Hret r msg. subst r.
  rewrite (goerror_logGenericArgs_returns _ _ _ _ _ _ _ _ Hret).
  destruct (logGenericArgs_record logger lg msgTemplate (goerror.textOf err)
              args stackDepth s Hlg (reachable_jsonWriter _ _ Hreach))
    as (record & Hst & Hout & _ & _ & Hfixed).
  fold msg in Hout. split; [| split].
  - exists record. split.
    + by rewrite Hst, stdout_Encode, renderMessage_stdout.
    + rewrite Hfixed by done. by rewrite fixedFields_lookup.
  - rewrite Hout. by destruct (IsFatal lg).
  - rewrite Hout. by destruct (IsFatal lg).
Qed.

Lemma log_emits_then_terminates_iff_fatal_witness :
  let r := @goerror.logGenericArgs exampleRuntime gotemplate.engine
             (Fatal exampleState) "disk {{.user}} full"
             (Some (goerror.ErrorReturns "ENOSPC")) (Some 7%nat) 1
             exampleState in
  let msg := (@renderMessage gotemplate.engine "disk {{.user}} full"
                (Some 7%nat) exampleState).2 in
  (exists record,
      stdout r.1 = (stdout exampleState ++ [record])%list /\
      record !! "msg" = Some msg) /\
  (r.2 = Panicked (PanicString msg) <-> true = true) /\
  (r.2 = Returned <-> true = false).
Proof.
  apply (log_emits_then_terminates_iff_fatal exampleRuntime gotemplate.engine
           "/usr/local/bin/sms-auth-service" exampleState (Fatal exampleState)
           {| Level := "fatal"; IsFatal := true |}).
  - apply reachable_init.
  - reflexivity.
  - intros v. discriminate.
Defined.

(** C1 as stated fails for an error whose [Error()] panics: [LogErr]
    through the info handle, which is not fatal, with such an error does
    not return normally and writes no record. *)
Lemma panicking_error_counterexample :
  let r := @goerror.LogErr exampleRuntime gotemplate.engine (Info exampleState)
             "lookup failed" (Some (goerror.ErrorPanics NilDereference))
             exampleState in
  handle exampleState (Info exampleState) =
    Some {| Level := "info"; IsFatal := false |} /\
  r.2 = Panicked NilDereference /\
  r.2 <> Returned /\
  stdout r.1 = stdout exampleState.
Proof.
  split; [reflexivity |]. split; [by vm_compute |].
  split; [by vm_compute | by vm_compute].
Qed.

(** C6. The record of a call has the field [error] if and only if an error
    was supplied; the field then holds the error's message, and without an
    error the field is absent from the record. *)
Theorem error_field_iff_error_supplied
    (rt : Runtime) (eng : TemplateEngine) (argv0 : string) (s : State)
    (logger : option loc) (lg : Logger) (msgTemplate : string)
    (err : option string) (args : option loc) (stackDepth : Z) :
  reachable argv0 s ->
  handle s logger = Some lg ->
  let r := logGenericArgs logger msgTemplate err args stackDepth s in
  exists record,
    stdout r.1 = (stdout s ++ [record])%list /\
    record !! "error" = err /\
    (is_Some (record !! "error") <-> is_Some err).
Proof.
  intros Hreach Hlg r.
  destruct (logGenericArgs_record logger lg msgTemplate err args stackDepth s
              Hlg (reachable_jsonWriter _ _ Hreach))
    as (record & Hst & _ & Herr & _).
  fold r in Hst. exists record. split; [| split].
  - by rewrite Hst, stdout_Encode, renderMessage_stdout.
  - done.
  - by rewrite Herr.
Qed.

Lemma error_field_iff_error_supplied_witness :
  let r := @logGenericArgs exampleRuntime gotemplate.engine
             (Error exampleState) "lookup failed" (Some "no such host")
             None 1 exampleState in
  exists record,
    stdout r.1 = (stdout exampleState ++ [record])%list /\
    record !! "error" = Some "no such host" /\
    (is_Some (record !! "error") <-> is_Some (Some "no such host")).
Proof.
  apply (error_field_iff_error_supplied exampleRuntime gotemplate.engine
           "/usr/local/bin/sms-auth-service" exampleState (Error exampleState)
           {| Level := "error"; IsFatal := false |}).
  - apply reachable_init.
  - reflexivity.
Defined.

(** C2. The dynamic fields of a record cannot collide: distinct argument
    names give distinct field names, no prefixed name is one of the fixed
    names, and so in the record of every call with an argument set each
    argument is found under its prefixed name while every fixed field keeps
    the value it has without the arguments, also when an argument is named
    like a fixed field. *)
Theorem dynamic_fields_collision_free
    (rt : Runtime) (eng : TemplateEngine) (argv0 : string) (s : State)
    (logger : option loc) (lg : Logger) (msgTemplate : string)
    (err : option string) (a : loc) (stackDepth : Z) :
  reachable argv0 s ->
  handle s logger = Some lg ->
  let r := logGenericArgs logger msgTemplate err (Some a) stackDepth s in
  let msg := (renderMessage msgTemplate (Some a) s).2 in
  let st := GetStackInfo (toInt IntSize (stackDepth + 1)) in
  (forall k1 k2 : string, k1 <> k2 -> "arg_" +:+ k1 <> "arg_" +:+ k2) /\
  (forall k : string, "arg_" +:+ k ∉ fixedNames) /\
  exists record,
    stdout r.1 = (stdout s ++ [record])%list /\
    (forall k, record !! ("arg_" +:+ k) = loadArgs a r.1 !! k) /\
    (forall name, name ∈ fixedNames ->
       record !! name =
       addError err
         (fixedFields (Level lg) msgTemplate msg st.1.1 st.1.2 st.2
                      (loggerExeName s)) !! name).
Proof.
  intros Hreach Hlg r msg st.
  split; [intros k1 k2 Hne Heq; by apply arg_prefix_inj in Heq |].
  split; [apply arg_prefix_not_fixed |].
  destruct (logGenericArgs_record logger lg msgTemplate err (Some a) stackDepth s
              Hlg (reachable_jsonWriter _ _ Hreach))
    as (record & Hst & _ & Herr & Hargs & Hfixed).
  fold r in Hst. exists record. split; [| split].
  - by rewrite Hst, stdout_Encode, renderMessage_stdout.
  - intros k. by rewrite Hargs, Hst.
  - intros name Hname. rewrite addError_lookup.
    case_decide as Hn; [subst name; by destruct err |].
    apply Hfixed; [by apply fixed_not_prefixed | done].
Qed.

Lemma dynamic_fields_collision_free_witness :
  let r := @logGenericArgs exampleRuntime gotemplate.engine
             (Info exampleState) "{{.user}} has {{.count}}" None
             (Some 7%nat) 1 exampleState in
  let msg := (@renderMessage gotemplate.engine "{{.user}} has {{.count}}"
                (Some 7%nat) exampleState).2 in
  let st := @GetStackInfo exampleRuntime (toInt IntSize (1 + 1)) in
  (forall k1 k2 : string, k1 <> k2 -> "arg_" +:+ k1 <> "arg_" +:+ k2) /\
  (forall k : string, "arg_" +:+ k ∉ fixedNames) /\
  exists record,
    stdout r.1 = (stdout exampleState ++ [record])%list /\
    (forall k, record !! ("arg_" +:+ k) = loadArgs 7%nat r.1 !! k) /\
    (forall name, name ∈ fixedNames ->
       record !! name =
       addError None
         (@fixedFields exampleRuntime "info" "{{.user}} has {{.count}}" msg
            st.1.1 st.1.2 st.2 (loggerExeName exampleState)) !! name).
Proof.
  apply (dynamic_fields_collision_free exampleRuntime gotemplate.engine
           "/usr/local/bin/sms-auth-service" exampleState (Info exampleState)
           {| Level := "info"; IsFatal := false |}).
  - apply reachable_init.
  - reflexivity.
Defined.

(** C5. A plain message logged without an argument set is rendered by the
    identity: the record's [msg] and [msgTemplate] both hold exactly that
    string, the record has no dynamic field, and the template engine plays
    no part in the call (no substitution is attempted). *)
Theorem plain_message_is_verbatim
    (rt : Runtime) (eng : TemplateEngine) (argv0 : string) (s : State)
    (logger : option loc) (lg : Logger) (msg : string)
    (err : option string) (stackDepth : Z) :
  reachable argv0 s ->
  handle s logger = Some lg ->
  let r := logGenericArgs logger msg err None stackDepth s in
  (exists record,
      stdout r.1 = (stdout s ++ [record])%list /\
      record !! "msg" = Some msg /\
      record !! "msgTemplate" = Some msg /\
      dynamicFields record = ∅) /\
  heapArgs r.1 = heapArgs s /\
  (forall eng' : TemplateEngine,
      @logGenericArgs rt eng' logger msg err None stackDepth s = r).
Proof.
  intros Hreach Hlg r.
  destruct (logGenericArgs_record logger lg msg err None stackDepth s
              Hlg (reachable_jsonWriter _ _ Hreach))
    as (record & Hst & _ & _ & Hargs & Hfixed).
  fold r in Hst. split; [| split].
  - exists record. split; [by rewrite Hst, stdout_Encode |].
    split; [by rewrite Hfixed, fixedFields_lookup by done |].
    split; [by rewrite Hfixed, fixedFields_lookup by done |].
    apply map_eq. intros key. rewrite lookup_empty.
    apply map_lookup_filter_None. right. intros v Hv Hp. simpl in Hp.
    apply has_prefix_arg in Hp as [k ->]. by rewrite Hargs in Hv.
  - by rewrite Hst.
  - intros eng'. reflexivity.
Qed.

Lemma plain_message_is_verbatim_witness :
  let r := @logGenericArgs exampleRuntime gotemplate.engine
             (Warn exampleState) "cache {{ miss" None None 1 exampleState in
  (exists record,
      stdout r.1 = (stdout exampleState ++ [record])%list /\
      record !! "msg" = Some "cache {{ miss" /\
      record !! "msgTemplate" = Some "cache {{ miss" /\
      dynamicFields record = ∅) /\
  heapArgs r.1 = heapArgs exampleState /\
  (forall eng' : TemplateEngine,
      @logGenericArgs exampleRuntime eng' (Warn exampleState) "cache {{ miss"
        None None 1 exampleState = r).
Proof.
  apply (plain_message_is_verbatim exampleRuntime gotemplate.engine
           "/usr/local/bin/sms-auth-service" exampleState (Warn exampleState)
           {| Level := "warn"; IsFatal := false |}).
  - apply reachable_init.
  - reflexivity.
Defined.

(** ** The substitution fragment renders by substitution *)

Section gotemplate_facts.
Import gotemplate.

Lemma outputOf_consText (c : ascii) (r : option (result (list Node))) (data : Args) :
  outputOf (consText c r) data = String c <$> outputOf r data.
Proof. by destruct r as [[[| [t | i] ns] | e] |]. Qed.

Lemma outputOf_consNode (n : Node) (r : option (result (list Node))) (data : Args) :
  outputOf (consNode n r) data = (fun out => evalNode data n +:+ out) <$> outputOf r data.
Proof. by destruct r as [[ns | e] |]. Qed.

Lemma lex_text_char (c : ascii) (rest : string) :
  Ascii.eqb c "{" = false ->
  lex (String c rest) lexText = consText c (lex rest lexText).
Proof. intros Hc. simpl. rewrite Hc. by destruct rest. Qed.

Lemma lex_action_char (c : ascii) (rest body : string) :
  Ascii.eqb c "}" = false ->
  lex (String c rest) (lexInsideAction body) =
  lex rest (lexInsideAction (body +:+ String c "")).
Proof. intros Hc. simpl. rewrite Hc. by destruct rest. Qed.

Lemma lex_literal (text rest : string) (data : Args) :
  string_forallb (isNot "{") text = true ->
  outputOf (lex (text +:+ rest) lexText) data =
  (fun out => text +:+ out) <$> outputOf (lex rest lexText) data.
Proof.
  induction text as [| c text IH]; intros Hok.
  - rewrite string_app_nil_l.
    destruct (outputOf (lex rest lexText) data); reflexivity.
  - simpl in Hok. apply andb_true_iff in Hok as [Hc Hok].
    unfold isNot in Hc. apply negb_true_iff in Hc.
    rewrite string_app_cons, lex_text_char, outputOf_consText, IH by done.
    destruct (outputOf (lex rest lexText) data); reflexivity.
Qed.

Lemma lex_action (chars body rest : string) :
  string_forallb (isNot "}") chars = true ->
  lex (chars +:+ "}}" +:+ rest) (lexInsideAction body) =
  match parseAction (body +:+ chars) with
  | Some n => consNode n (lex rest lexText)
  | None => None
  end.
Proof.
  revert body. induction chars as [| c chars IH]; intros body Hok.
  - by rewrite string_app_nil_l, string_app_nil_r.
  - simpl in Hok. apply andb_true_iff in Hok as [Hc Hok].
    unfold isNot in Hc. apply negb_true_iff in Hc.
    rewrite string_app_cons, lex_action_char, IH by done.
    by rewrite string_app_assoc.
Qed.

Lemma isAlphaNumeric_not_brace (c : ascii) :
  isAlphaNumeric c = true -> isNot "}" c = true.
Proof.
  intros Hc. unfold isNot. apply negb_true_iff.
  destruct (Ascii.eqb_spec c "}") as [-> | _]; [by vm_compute in Hc | done].
Qed.

Lemma string_forallb_impl (p q : ascii -> bool) (s : string) :
  (forall c, p c = true -> q c = true) ->
  string_forallb p s = true -> string_forallb q s = true.
Proof.
  intros Hpq. induction s as [| c s IH]; simpl; [done |].
  rewrite !andb_true_iff. intros [Hc Hs]. auto.
Qed.

Lemma isIdentifier_no_brace (name : string) :
  isIdentifier name = true -> string_forallb (isNot "}") name = true.
Proof.
  destruct name as [| c name]; simpl; [done |].
  rewrite !andb_true_iff. intros [Hc Hs]. split.
  - apply isAlphaNumeric_not_brace. unfold isAlphaNumeric. by rewrite Hc.
  - revert Hs. apply string_forallb_impl, isAlphaNumeric_not_brace.
Qed.

Lemma lex_hole (name rest : string) :
  isIdentifier name = true ->
  lex (showPiece (Hole name) +:+ rest) lexText =
  consNode (FieldNode name) (lex rest lexText).
Proof.
  intros Hid. unfold showPiece.
  change (lex (("{{." +:+ name +:+ "}}") +:+ rest) lexText)
    with (lex (String "." ((name +:+ "}}") +:+ rest)) (lexInsideAction "")).
  rewrite lex_action_char, string_app_assoc, lex_action by
    (done || by apply isIdentifier_no_brace).
  change (("" +:+ ".") +:+ name) with (String "." name).
  simpl. by rewrite Hid.
Qed.

(** A template of the fragment lexes, and printing it substitutes the
    arguments for the placeholders. *)
Lemma lex_showPieces (data : Args) (ps : list Piece) :
  forallb (pieceOk data) ps = true ->
  outputOf (lex (showPieces ps) lexText) data = Some (fillPieces data ps).
Proof.
  induction ps as [| p ps IH]; intros Hok; [done |].
  simpl in Hok. apply andb_true_iff in Hok as [Hp Hok]. simpl showPieces.
  destruct p as [text | name]; simpl in Hp.
  - simpl showPiece. by rewrite lex_literal, IH.
  - apply andb_true_iff in Hp as [Hid Hin].
    apply bool_decide_eq_true in Hin as [v Hv].
    rewrite lex_hole, outputOf_consNode, IH by done.
    simpl. by rewrite Hv.
Qed.

Lemma parse_showPieces (data : Args) (ps : list Piece) :
  forallb (pieceOk data) ps = true ->
  exists t, Parse (showPieces ps) = Ok t /\
            Execute t data = Ok (fillPieces data ps).
Proof.
  intros Hok. pose proof (lex_showPieces data ps Hok) as Hout.
  simpl. unfold parse.
  destruct (lex (showPieces ps) lexText) as [[ns | e] |]; try discriminate.
  exists ns. simpl in Hout. split; [done | congruence].
Qed.

End gotemplate_facts.

(** ** Template failures *)

Section template_failures.
Context `{eng : TemplateEngine}.

Lemma renderMessage_failure (msgTemplate e : string) (a : loc) (s : State) :
  templateError msgTemplate (loadArgs a s) = Some e ->
  renderMessage msgTemplate (Some a) s =
  (assignArg a "_templateErr" e s, msgTemplate).
Proof.
  unfold templateError, renderMessage.
  destruct (Parse msgTemplate) as [t | e']; [| congruence].
  destruct (Execute t (loadArgs a s)) as [m | e']; [discriminate | congruence].
Qed.

Lemma renderMessage_success (msgTemplate rendered : string) (t : Template)
    (a : loc) (s : State) :
  Parse msgTemplate = Ok t ->
  Execute t (loadArgs a s) = Ok rendered ->
  renderMessage msgTemplate (Some a) s = (s, rendered).
Proof. intros Hp He. unfold renderMessage. by rewrite Hp, He. Qed.

Lemma templateError_parse (msgTemplate e : string) (data : Args) :
  Parse msgTemplate = Failed e -> templateError msgTemplate data = Some e.
Proof. intros Hp. unfold templateError. by rewrite Hp. Qed.

End template_failures.

(** C10. When processing the template fails (in [Parse] or in [Execute]),
    the caller's own argument map is updated in place with the key
    [_templateErr], and the record carries that entry under the prefixed
    name [arg__templateErr], not under the bare name; when the template
    renders, the caller's maps are left as they were. *)
Theorem template_failure_marks_caller_map
    (rt : Runtime) (eng : TemplateEngine) (argv0 : string) (s : State)
    (logger : option loc) (lg : Logger) (msgTemplate : string)
    (err : option string) (a : loc) (stackDepth : Z) :
  reachable argv0 s ->
  handle s logger = Some lg ->
  let r := logGenericArgs logger msgTemplate err (Some a) stackDepth s in
  match templateError msgTemplate (loadArgs a s) with
  | Some e =>
      heapArgs r.1 =
        <[a := <["_templateErr" := e]> (loadArgs a s)]> (heapArgs s) /\
      exists record,
        stdout r.1 = (stdout s ++ [record])%list /\
        record !! "arg__templateErr" = Some e /\
        record !! "_templateErr" = None
  | None => heapArgs r.1 = heapArgs s
  end.
Proof.
  intros Hreach Hlg r.
  destruct (logGenericArgs_record logger lg msgTemplate err (Some a) stackDepth s
              Hlg (reachable_jsonWriter _ _ Hreach))
    as (record & Hst & _ & _ & Hargs & Hfixed).
  fold r in Hst.
  destruct (templateError msgTemplate (loadArgs a s)) as [e |] eqn:Hte.
  - rewrite (renderMessage_failure _ _ _ _ Hte) in Hst, Hargs. simpl in *.
    split; [by rewrite Hst |].
    exists record. split; [by rewrite Hst |]. split.
    + change "arg__templateErr" with ("arg_" +:+ "_templateErr").
      by rewrite Hargs, loadArgs_assignArg, lookup_insert_eq.
    + rewrite Hfixed by done. by rewrite fixedFields_lookup.
  - rewrite Hst. unfold templateError, renderMessage in *.
    destruct (Parse msgTemplate) as [t | e]; [| discriminate].
    by destruct (Execute t (loadArgs a s)).
Qed.

Lemma template_failure_marks_caller_map_witness :
  let r := @logGenericArgs exampleRuntime gotemplate.engine
             (Info exampleState) "hello {{.user}} {{" None (Some 7%nat) 1
             exampleState in
  match @templateError gotemplate.engine "hello {{.user}} {{"
          (loadArgs 7%nat exampleState) with
  | Some e =>
      heapArgs r.1 =
        <[7%nat := <["_templateErr" := e]> (loadArgs 7%nat exampleState)]>
          (heapArgs exampleState) /\
      exists record,
        stdout r.1 = (stdout exampleState ++ [record])%list /\
        record !! "arg__templateErr" = Some e /\
        record !! "_templateErr" = None
  | None => heapArgs r.1 = heapArgs exampleState
  end.
Proof.
  apply (template_failure_marks_caller_map exampleRuntime gotemplate.engine
           "/usr/local/bin/sms-auth-service" exampleState (Info exampleState)
           {| Level := "info"; IsFatal := false |}).
  - apply reachable_init.
  - reflexivity.
Defined.

(** C3, as the code has it. A malformed template logged together with an
    argument set does not make the call fail: the call ends as the handle
    prescribes (it returns, or for the fatal handle panics with the raw
    template as the reason), the record has the diagnostic field
    [arg__templateErr] holding the message of the parse error, and the
    record's [msg] is the raw template. *)
Theorem malformed_template_is_diagnosed
    (rt : Runtime) (eng : TemplateEngine) (argv0 : string) (s : State)
    (logger : option loc) (lg : Logger) (msgTemplate e : string)
    (err : option string) (a : loc) (stackDepth : Z) :
  reachable argv0 s ->
  handle s logger = Some lg ->
  Parse msgTemplate = Failed e ->
  let r := logGenericArgs logger msgTemplate err (Some a) stackDepth s in
  r.2 = (if IsFatal lg then Panicked (PanicString msgTemplate) else Returned) /\
  exists record,
    stdout r.1 = (stdout s ++ [record])%list /\
    record !! "arg__templateErr" = Some e /\
    record !! "msg" = Some msgTemplate.
Proof.
  intros Hreach Hlg Hparse r.
  destruct (logGenericArgs_record logger lg msgTemplate err (Some a) stackDepth s
              Hlg (reachable_jsonWriter _ _ Hreach))
    as (record & Hst & Hout & _ & Hargs & Hfixed).
  fold r in Hst, Hout.
  pose proof (templateError_parse msgTemplate e (loadArgs a s) Hparse) as Hte.
  rewrite (renderMessage_failure _ _ _ _ Hte) in Hst, Hout, Hargs, Hfixed.
  simpl in *. split; [done |].
  exists record. split; [by rewrite Hst |]. split.
  - change "arg__templateErr" with ("arg_" +:+ "_templateErr").
    by rewrite Hargs, loadArgs_assignArg, lookup_insert_eq.
  - rewrite Hfixed by done. by rewrite fixedFields_lookup.
Qed.

Lemma malformed_template_is_diagnosed_witness :
  let r := @logGenericArgs exampleRuntime gotemplate.engine
             (Info exampleState) "hello {{.user" None (Some 7%nat) 1
             exampleState in
  r.2 = Returned /\
  exists record,
    stdout r.1 = (stdout exampleState ++ [record])%list /\
    record !! "arg__templateErr" = Some gotemplate.unclosedAction /\
    record !! "msg" = Some "hello {{.user".
Proof.
  apply (malformed_template_is_diagnosed exampleRuntime gotemplate.engine
           "/usr/local/bin/sms-auth-service" exampleState (Info exampleState)
           {| Level := "info"; IsFatal := false |}).
  - apply reachable_init.
  - reflexivity.
  - reflexivity.
Defined.

(** C3 as stated fails without an argument set: the malformed template
    ["{{"] passed to [LogArgs] with a [nil] map gives a record in which no
    field holds the message of the parse error. *)
Lemma malformed_template_without_args_counterexample :
  let r := @LogArgs exampleRuntime gotemplate.engine (Info exampleState) "{{"
             None exampleState in
  @Parse gotemplate.engine "{{" = Failed gotemplate.unclosedAction /\
  exists record,
    stdout r.1 = [record] /\
    ~ (exists key, record !! key = Some gotemplate.unclosedAction).
Proof.
  split; [reflexivity |].
  eexists. split; [by vm_compute |].
  intros [key Hkey]. apply elem_of_map_to_list in Hkey.
  vm_compute in Hkey.
  repeat (apply elem_of_cons in Hkey as [Hkey | Hkey]; [discriminate Hkey |]).
  by apply elem_of_nil in Hkey.
Qed.

(** C4, as the code has it. When the template parses and executes without
    error, the record's [msg] is the text the template printed and
    [msgTemplate] is the template as it was given; for a template made of
    literal text and placeholders [{{.name}}] whose names are in the
    argument set, the printed text is the template with every placeholder
    replaced by the argument's value. *)
Theorem rendered_template_is_the_message
    (rt : Runtime) (argv0 : string) (logger : option loc) (lg : Logger)
    (err : option string) (a : loc) (stackDepth : Z) :
  (forall (eng : TemplateEngine) (s : State) (msgTemplate rendered : string)
          (t : Template),
      reachable argv0 s ->
      handle s logger = Some lg ->
      Parse msgTemplate = Ok t ->
      Execute t (loadArgs a s) = Ok rendered ->
      let r := logGenericArgs logger msgTemplate err (Some a) stackDepth s in
      exists record,
        stdout r.1 = (stdout s ++ [record])%list /\
        record !! "msg" = Some rendered /\
        record !! "msgTemplate" = Some msgTemplate) /\
  (forall (s : State) (pieces : list gotemplate.Piece),
      @reachable gotemplate.engine argv0 s ->
      handle s logger = Some lg ->
      forallb (gotemplate.pieceOk (loadArgs a s)) pieces = true ->
      let msgTemplate := gotemplate.showPieces pieces in
      let r := @logGenericArgs rt gotemplate.engine logger msgTemplate err
                 (Some a) stackDepth s in
      exists record,
        stdout r.1 = (stdout s ++ [record])%list /\
        record !! "msg" = Some (gotemplate.fillPieces (loadArgs a s) pieces) /\
        record !! "msgTemplate" = Some msgTemplate).
Proof.
  assert (forall (eng : TemplateEngine) (s : State)
                 (msgTemplate rendered : string) (t : Template),
             reachable argv0 s ->
             handle s logger = Some lg ->
             Parse msgTemplate = Ok t ->
             Execute t (loadArgs a s) = Ok rendered ->
             exists record,
               stdout (logGenericArgs logger msgTemplate err (Some a)
                         stackDepth s).1 = (stdout s ++ [record])%list /\
               record !! "msg" = Some rendered /\
               record !! "msgTemplate" = Some msgTemplate) as Hgen.
  { intros eng s msgTemplate rendered t Hreach Hlg Hparse Hexec.
    destruct (logGenericArgs_record logger lg msgTemplate err (Some a)
                stackDepth s Hlg (reachable_jsonWriter _ _ Hreach))
      as (record & Hst & _ & _ & _ & Hfixed).
    rewrite (renderMessage_success _ _ _ _ _ Hparse Hexec) in Hst, Hfixed.
    simpl in *. exists record. split; [by rewrite Hst |].
    split; rewrite Hfixed by done; by rewrite fixedFields_lookup. }
  split; [exact Hgen |].
  intros s pieces Hreach Hlg Hok msgTemplate r.
  destruct (parse_showPieces (loadArgs a s) pieces Hok) as (t & Hparse & Hexec).
  exact (Hgen gotemplate.engine s msgTemplate _ t Hreach Hlg Hparse Hexec).
Qed.

Lemma rendered_template_is_the_message_witness :
  let pieces :=
    [gotemplate.Hole "user"; gotemplate.Lit " has ";
     gotemplate.Hole "count"; gotemplate.Lit " items"] in
  let r := @logGenericArgs exampleRuntime gotemplate.engine
             (Info exampleState) "{{.user}} has {{.count}} items" None
             (Some 7%nat) 1 exampleState in
  exists record,
    stdout r.1 = (stdout exampleState ++ [record])%list /\
    record !! "msg" =
      Some (gotemplate.fillPieces (loadArgs 7%nat exampleState) pieces) /\
    record !! "msgTemplate" = Some "{{.user}} has {{.count}} items".
Proof.
  apply (proj2 (rendered_template_is_the_message exampleRuntime
                  "/usr/local/bin/sms-auth-service" (Info exampleState)
                  {| Level := "info"; IsFatal := false |} None 7%nat 1)
               exampleState
               [gotemplate.Hole "user"; gotemplate.Lit " has ";
                gotemplate.Hole "count"; gotemplate.Lit " items"]).
  - apply reachable_init.
  - reflexivity.
  - by vm_compute.
Defined.

(** C4 as stated fails when the rest of the template is malformed: in
    ["{{.user}} {{"] the placeholder names the argument [user], whose value
    is ["alice"], and the record's [msg] is the raw template, not the
    template with the placeholder replaced. *)
Lemma placeholder_in_malformed_template_counterexample :
  let r := @LogArgs exampleRuntime gotemplate.engine (Info exampleState)
             "{{.user}} {{" (Some 7%nat) exampleState in
  loadArgs 7%nat exampleState !! "user" = Some "alice" /\
  exists record,
    stdout r.1 = [record] /\
    record !! "msg" = Some "{{.user}} {{" /\
    record !! "msg" <> Some "alice {{".
Proof.
  split; [by vm_compute |].
  eexists. split; [by vm_compute |].
  split; [by vm_compute |].
  by vm_compute.
Qed.

(** C8. In every state of a program, exactly six level handles exist: the
    ones [init] created, named trace, debug, info, warn, error and fatal;
    only the fatal handle has the fatal flag; each accessor returns the
    pointer it returned right after [init], and no step of the program
    changes a handle. *)
Theorem level_registry_is_fixed
    (eng : TemplateEngine) (argv0 : string) (s : State) :
  reachable argv0 s ->
  let ptrs := (fun get => get s) <$> accessors in
  ptrs = (fun get => get (init argv0 (zeroState ∅))) <$> accessors /\
  NoDup ptrs /\
  handle s <$> ptrs = Some <$> levelHandles /\
  size (heapLogger s) = 6%nat /\
  (forall p lg, handle s p = Some lg ->
                p ∈ ptrs /\ (IsFatal lg = true <-> p = Fatal s)) /\
  (forall s', step s s' ->
              heapLogger s' = heapLogger s /\
              (fun get => get s') <$> accessors = ptrs).
Proof.
  intros Hreach ptrs.
  destruct (reachable_registered _ _ Hreach) as (Hheap & Hptrs & _).
  assert (ptrs = [Some 0; Some 1; Some 2; Some 3; Some 4; Some 5]%nat) as Hp
    by exact Hptrs.
  clearbody ptrs. subst ptrs.
  unfold accessors, Trace, Debug, Info, Warn, Error, Fatal in Hptrs.
  simpl in Hptrs.
  assert (Fatal s = Some 5%nat) as Hfatal by (unfold Fatal; congruence).
  split; [done |].
  split; [apply (bool_decide_unpack _); by vm_compute |].
  split; [unfold handle; rewrite Hheap; by vm_compute |].
  split; [rewrite Hheap; by vm_compute |].
  split.
  - intros p lg Hp. rewrite Hfatal. unfold handle in Hp.
    rewrite Hheap in Hp. destruct p as [l |]; [| discriminate]. simpl in Hp.
    apply elem_of_list_to_map_2 in Hp. simpl in Hp.
    repeat (apply elem_of_cons in Hp as [Hp | Hp];
            [injection Hp as -> ->; split;
             [set_solver | split; intros; (discriminate || done) ] |]).
    by apply elem_of_nil in Hp.
  - intros s' Hstep.
    destruct (step_samePackage _ _ Hstep)
      as (Hh & _ & Ht & Hd & Hi & Hw & He & Hf & _).
    split; [done |].
    unfold accessors, Trace, Debug, Info, Warn, Error, Fatal. simpl.
    by rewrite Ht, Hd, Hi, Hw, He, Hf.
Qed.

Lemma level_registry_is_fixed_witness :
  let s := (@Log exampleRuntime gotemplate.engine (Info exampleState)
              "started" exampleState).1 in
  let ptrs := (fun get => get s) <$> accessors in
  ptrs = (fun get => get (init "/usr/local/bin/sms-auth-service" (zeroState ∅)))
           <$> accessors /\
  NoDup ptrs /\
  handle s <$> ptrs = Some <$> levelHandles /\
  size (heapLogger s) = 6%nat /\
  (forall p lg, handle s p = Some lg ->
                p ∈ ptrs /\ (IsFatal lg = true <-> p = Fatal s)) /\
  (forall s', @step gotemplate.engine s s' ->
              heapLogger s' = heapLogger s /\
              (fun get => get s') <$> accessors = ptrs).
Proof.
  apply (level_registry_is_fixed gotemplate.engine
           "/usr/local/bin/sms-auth-service").
  apply (reachable_step _ exampleState).
  - apply reachable_init.
  - apply (step_Log exampleRuntime).
Defined.

(** ** Indexing and slicing strings *)

Lemma string_get_app_r (s1 s2 : string) (n : nat) :
  String.get (String.length s1 + n) (s1 +:+ s2) = String.get n s2.
Proof. rewrite Nat.add_comm. symmetry. apply append_correct2. Qed.

Lemma string_get_lt (s : string) (n : nat) :
  (n < String.length s)%nat -> is_Some (String.get n s).
Proof.
  revert n. induction s as [| c s IH]; intros n Hn; simpl in Hn; [lia |].
  destruct n as [| n]; simpl; [by eexists | apply IH; lia].
Qed.

Lemma string_forallb_get (p : ascii -> bool) (s : string) (n : nat) (c : ascii) :
  string_forallb p s = true -> String.get n s = Some c -> p c = true.
Proof.
  revert n. induction s as [| d s IH]; intros n Hall Hget; [discriminate |].
  simpl in Hall. apply andb_true_iff in Hall as [Hd Hs].
  destruct n as [| n]; simpl in Hget; [congruence | eauto].
Qed.

Lemma substring_full (s : string) : substring 0 (String.length s) s = s.
Proof. induction s as [| c s IH]; simpl; [done | by rewrite IH]. Qed.

Lemma substring_app_r (s1 s2 : string) (n m : nat) :
  substring (String.length s1 + n) m (s1 +:+ s2) = substring n m s2.
Proof.
  induction s1 as [| c s1 IH]; [done |].
  rewrite string_app_cons. simpl. apply IH.
Qed.

Lemma string_length_snoc_app (s1 s2 : string) (c : ascii) :
  String.length (s1 +:+ String c s2) =
  S (String.length s1 + String.length s2).
Proof. rewrite string_length_app. simpl. lia. Qed.

(** ** filepath and strings: lemmas *)

Section filepath_facts.
Import filepath.

Lemma isNot_sep (c : ascii) : isNot "/" c = true -> isPathSeparator c = false.
Proof. unfold isNot, isPathSeparator. apply negb_true_iff. Qed.

Lemma isNot_dot (c : ascii) : isNot "." c = true -> Ascii.eqb c "." = false.
Proof. unfold isNot. apply negb_true_iff. Qed.

(** Scanning back from the end of [q ++ "." ++ bare], the loop of [Ext]
    walks over [bare] and stops at the dot. *)
Lemma extFrom_after_dot (q bare : string) (k : nat) :
  string_forallb (isNot ".") bare = true ->
  string_forallb (isNot "/") bare = true ->
  (k <= String.length bare)%nat ->
  extFrom (q +:+ String "." bare) (String.length q + S k) = String "." bare.
Proof.
  intros Hdot Hsep. induction k as [| k IH]; intros Hk.
  - rewrite Nat.add_1_r. simpl extFrom.
    rewrite <- (Nat.add_0_r (String.length q)) at 1.
    rewrite string_get_app_r. simpl.
    rewrite string_length_snoc_app.
    replace (S (String.length q + String.length bare) - String.length q)%nat
      with (S (String.length bare)) by lia.
    rewrite <- (Nat.add_0_r (String.length q)) at 1.
    rewrite substring_app_r. simpl. by rewrite substring_full.
  - rewrite Nat.add_succ_r. simpl extFrom.
    rewrite string_get_app_r. simpl.
    destruct (string_get_lt bare k ltac:(lia)) as [c Hc]. rewrite Hc.
    rewrite (isNot_sep c), (isNot_dot c) by (eapply string_forallb_get; eauto).
    apply IH. lia.
Qed.

Lemma Ext_qualified (q bare : string) :
  string_forallb (isNot ".") bare = true ->
  string_forallb (isNot "/") bare = true ->
  Ext (q +:+ "." +:+ bare) = String "." bare.
Proof.
  intros Hdot Hsep. unfold Ext.
  change (q +:+ "." +:+ bare) with (q +:+ String "." bare).
  rewrite string_length_snoc_app, <- Nat.add_succ_r.
  by apply extFrom_after_dot.
Qed.

Lemma TrimLeft_dot (bare : string) :
  string_forallb (isNot ".") bare = true ->
  strings.TrimLeft (String "." bare) "." = bare.
Proof.
  intros Hdot. simpl. destruct bare as [| c bare]; [done |].
  simpl in Hdot. apply andb_true_iff in Hdot as [Hc _].
  simpl. by rewrite (isNot_dot c Hc).
Qed.

Lemma lastSeparator_none (path : string) (n : nat) :
  string_forallb (isNot "/") path = true ->
  lastSeparator path n = None.
Proof.
  intros Hsep. induction n as [| n IH]; [done |]. simpl.
  destruct (String.get n path) as [c |] eqn:Hc; [| done].
  by rewrite (isNot_sep c) by (eapply string_forallb_get; eauto).
Qed.

Lemma lastSeparator_after_sep (dir base : string) (k : nat) :
  string_forallb (isNot "/") base = true ->
  (k <= String.length base)%nat ->
  lastSeparator (dir +:+ String "/" base) (String.length dir + S k) =
  Some (String.length dir).
Proof.
  intros Hsep. induction k as [| k IH]; intros Hk.
  - rewrite Nat.add_1_r. simpl.
    rewrite <- (Nat.add_0_r (String.length dir)) at 1.
    by rewrite string_get_app_r.
  - rewrite Nat.add_succ_r. simpl.
    rewrite string_get_app_r. simpl.
    destruct (string_get_lt base k ltac:(lia)) as [c Hc]. rewrite Hc.
    rewrite (isNot_sep c) by (eapply string_forallb_get; eauto).
    apply IH. lia.
Qed.

(** A path that ends in a byte other than the separator has no trailing
    separators to strip. *)
Lemma stripTrailingSeparators_id (path : string) (c : ascii) :
  String.get (String.length path - 1) path = Some c ->
  isPathSeparator c = false ->
  stripTrailingSeparators path (String.length path) = path.
Proof.
  intros Hget Hc. destruct (String.length path) as [| n] eqn:Hlen.
  - destruct path; [done | discriminate].
  - simpl in Hget. rewrite Nat.sub_0_r in Hget. simpl.
    rewrite Hget, Hc, <- Hlen. apply substring_full.
Qed.

Lemma string_last_get (base : string) :
  base <> "" ->
  string_forallb (isNot "/") base = true ->
  exists c, String.get (String.length base - 1) base = Some c /\
            isPathSeparator c = false.
Proof.
  intros Hne Hsep.
  assert (0 < String.length base)%nat as Hlen
    by (destruct base; [done | simpl; lia]).
  destruct (string_get_lt base (String.length base - 1) ltac:(lia)) as [c Hc].
  exists c. split; [done |].
  apply isNot_sep. eapply string_forallb_get; eauto.
Qed.

Lemma string_eqb_nonempty (s : string) : s <> "" -> String.eqb s "" = false.
Proof. intros Hne. by destruct s. Qed.

Lemma Base_plain (base : string) :
  base <> "" ->
  string_forallb (isNot "/") base = true ->
  Base base = base.
Proof.
  intros Hne Hsep. unfold Base. rewrite string_eqb_nonempty by done.
  destruct (string_last_get base Hne Hsep) as (c & Hget & Hc).
  rewrite (stripTrailingSeparators_id base c Hget Hc).
  rewrite lastSeparator_none by done.
  by rewrite string_eqb_nonempty.
Qed.

Lemma Base_in_directory (dir base : string) :
  base <> "" ->
  string_forallb (isNot "/") base = true ->
  Base (dir +:+ "/" +:+ base) = base.
Proof.
  intros Hne Hsep.
  change (dir +:+ "/" +:+ base) with (dir +:+ String "/" base).
  set (path := dir +:+ String "/" base).
  assert (String.length path = (String.length dir + S (String.length base))%nat)
    as Hlen by (unfold path; rewrite string_length_snoc_app; lia).
  assert (path <> "") as Hpath
    by (intros Heq; rewrite Heq in Hlen; simpl in Hlen; lia).
  destruct (string_last_get base Hne Hsep) as (c & Hget & Hc).
  assert (0 < String.length base)%nat as Hbase
    by (destruct base; [done | simpl; lia]).
  assert (stripTrailingSeparators path (String.length path) = path) as Hstrip.
  { apply (stripTrailingSeparators_id path c); [| done].
    rewrite Hlen. unfold path.
    replace (String.length dir + S (String.length base) - 1)%nat
      with (String.length dir + S (String.length base - 1))%nat by lia.
    rewrite string_get_app_r. simpl. exact Hget. }
  assert (lastSeparator path (String.length path) = Some (String.length dir))
    as Hlast
    by (rewrite Hlen; unfold path; by apply lastSeparator_after_sep).
  assert (substring (S (String.length dir))
                    (String.length path - S (String.length dir)) path = base)
    as Hsub.
  { rewrite Hlen.
    replace (String.length dir + S (String.length base) - S (String.length dir))%nat
      with (String.length base) by lia.
    unfold path.
    change (dir +:+ String "/" base) with (dir +:+ "/" +:+ base).
    rewrite <- string_app_assoc.
    replace (S (String.length dir)) with (String.length (dir +:+ "/") + 0)%nat
      by (rewrite string_length_app; simpl; lia).
    by rewrite substring_app_r, substring_full. }
  unfold Base. rewrite string_eqb_nonempty by done. cbv zeta.
  rewrite Hstrip, Hlast, Hsub.
  by rewrite string_eqb_nonempty.
Qed.

End filepath_facts.

(** ** GetStackInfo *)

(** When the frame resolves but the runtime knows no function for its
    program counter, only the function component keeps its fallback
    value. *)
Lemma GetStackInfo_unknown_function (rt : Runtime) (stackDepth pc line : Z)
    (file : string) :
  Caller (toInt IntSize (stackDepth + 1)) = Some (pc, file, line) ->
  FuncForPC pc = None ->
  GetStackInfo stackDepth = (filepath.Base file, "?()", Int line).
Proof. intros Hc Hf. unfold GetStackInfo. by rewrite Hc, Hf. Qed.

(** X18. For every skip count: when the runtime cannot resolve the frame,
    [GetStackInfo] returns exactly [("?", "?()", "0")]; when it resolves
    the frame and its function, and the function's qualified name ends in
    a dot followed by a component without dots and separators, it returns
    the last element of the file's path, that component followed by [()],
    and the line number in decimal, which parses back to the line. *)
Theorem GetStackInfo_reports_the_caller (rt : Runtime) (stackDepth : Z) :
  let frame := Caller (toInt IntSize (stackDepth + 1)) in
  (frame = None -> GetStackInfo stackDepth = ("?", "?()", "0")) /\
  (forall (pc line : Z) (file dir base qualifier bare : string),
      frame = Some (pc, file, line) ->
      FuncForPC pc = Some (qualifier +:+ "." +:+ bare) ->
      file = base \/ file = dir +:+ "/" +:+ base ->
      base <> "" ->
      string_forallb (isNot "/") base = true ->
      string_forallb (isNot ".") bare = true ->
      string_forallb (isNot "/") bare = true ->
      inRange TInt line ->
      GetStackInfo stackDepth = (base, bare +:+ "()", Int line) /\
      parseScalar TInt (Int line) = Some line).
Proof.
  intros frame. split.
  - intros Hframe. unfold GetStackInfo. fold frame. by rewrite Hframe.
  - intros pc line file dir base qualifier bare Hframe Hfn Hfile Hne Hsep
           Hdot Hbsep Hline.
    split.
    + unfold GetStackInfo. fold frame. rewrite Hframe, Hfn.
      rewrite Ext_qualified, TrimLeft_dot by done.
      assert (filepath.Base file = base) as ->; [| done].
      destruct Hfile as [-> | ->];
        [by apply Base_plain | by apply Base_in_directory].
    + pose proof (inRange_bounds TInt line Hline) as Hb.
      unfold parseScalar. simpl in Hb |- *.
      unfold Int, strconv.Itoa, IntSize in *.
      rewrite toInt_id by lia. apply ParseInt_FormatInt; lia.
Qed.

Lemma GetStackInfo_reports_the_caller_witness :
  @GetStackInfo exampleRuntime 2 = ("main.go", "ServeGrpc()", Int 59) /\
  parseScalar TInt (Int 59) = Some 59.
Proof.
  apply (proj2 (GetStackInfo_reports_the_caller exampleRuntime 2)
               4198400 59 "/home/dev/app/server/main.go" "/home/dev/app/server"
               "main.go" "github.com/acme/app/server.(*Server)" "ServeGrpc").
  - reflexivity.
  - reflexivity.
  - right. reflexivity.
  - discriminate.
  - reflexivity.
  - reflexivity.
  - reflexivity.
  - unfold inRange, minValue, maxValue, bitSize, IntSize. simpl. lia.
Defined.

(** * More of the package *)

(** ** Every public method reports its caller *)

Section call_site.
Context `{rt : Runtime} `{eng : TemplateEngine}.

(** The location fields of the record of any call that passes stack depth 1:
    they describe the frame three levels above [GetStackInfo]
    ([GetStackInfo], [logGenericArgs], the public method, its caller). *)
Lemma depth_one_location (logger : option loc) (lg : Logger)
    (msgTemplate : string) (err : option string) (args : option loc) (s : State) :
  handle s logger = Some lg ->
  is_Some (jsonWriter s) ->
  exists record,
    stdout (logGenericArgs logger msgTemplate err args 1 s).1 =
      (stdout s ++ [record])%list /\
    reportsFrame 3 record.
Proof.
  intros Hlg Henc.
  destruct (logGenericArgs_record logger lg msgTemplate err args 1 s Hlg Henc)
    as (record & Hst & _ & _ & _ & Hfixed).
  exists record. split; [by rewrite Hst, stdout_Encode, renderMessage_stdout |].
  unfold reportsFrame.
  rewrite !Hfixed by done. rewrite !fixedFields_lookup. simpl.
  change (toInt IntSize (1 + 1)) with 2. unfold GetStackInfo.
  change (toInt IntSize (2 + 1)) with 3.
  destruct (Caller 3) as [[[pc file] line] |]; [| done].
  by destruct (FuncForPC pc).
Qed.

End call_site.

(** X1. Each of the four public methods, called through a level handle,
    writes a record whose [file], [func] and [line] describe the frame
    three levels above [GetStackInfo], that is the code that called the
    method; when the runtime cannot resolve that frame the three fields
    hold the fallback values. *)
Theorem public_methods_report_their_caller
    (rt : Runtime) (eng : TemplateEngine) (argv0 : string) (s : State)
    (logger : option loc) (lg : Logger) (msg : string)
    (err : option string) (args : option loc) :
  reachable argv0 s ->
  handle s logger = Some lg ->
  Forall (fun r : State * Outcome =>
            exists record,
              stdout r.1 = (stdout s ++ [record])%list /\
              reportsFrame 3 record)
    [ Log logger msg s; LogArgs logger msg args s;
      LogErr logger msg err s; LogErrArgs logger msg err args s ].
Proof.
  intros Hreach Hlg.
  pose proof (reachable_jsonWriter _ _ Hreach) as Henc.
  unfold Log, LogArgs, LogErr, LogErrArgs.
  repeat (constructor; [by apply (depth_one_location _ lg) |]).
  constructor.
Qed.

Lemma public_methods_report_their_caller_witness :
  Forall (fun r : State * Outcome =>
            exists record,
              stdout r.1 = (stdout exampleState ++ [record])%list /\
              @reportsFrame exampleRuntime 3 record)
    [ @Log exampleRuntime gotemplate.engine (Info exampleState) "up" exampleState;
      @LogArgs exampleRuntime gotemplate.engine (Info exampleState) "up"
        (Some 7%nat) exampleState;
      @LogErr exampleRuntime gotemplate.engine (Info exampleState) "up"
        (Some "late") exampleState;
      @LogErrArgs exampleRuntime gotemplate.engine (Info exampleState) "up"
        (Some "late") (Some 7%nat) exampleState ].
Proof.
  apply (public_methods_report_their_caller exampleRuntime gotemplate.engine
           "/usr/local/bin/sms-auth-service" exampleState (Info exampleState)
           {| Level := "info"; IsFatal := false |}).
  - apply reachable_init.
  - reflexivity.
Defined.

(** ** Edge cases of [logGenericArgs] *)

(** X2. A call on a [nil] receiver writes no record and panics with a nil
    dereference, but only after the template was processed: when the
    template fails the caller's map has already received [_templateErr]. *)
Theorem nil_receiver_panics_without_record
    (rt : Runtime) (eng : TemplateEngine) (msgTemplate : string)
    (err : option string) (args : option loc) (stackDepth : Z) (s : State) :
  let r := logGenericArgs None msgTemplate err args stackDepth s in
  r.2 = Panicked NilDereference /\
  stdout r.1 = stdout s /\
  match args with
  | Some a =>
      match templateError msgTemplate (loadArgs a s) with
      | Some e => loadArgs a r.1 = <["_templateErr" := e]> (loadArgs a s)
      | None => heapArgs r.1 = heapArgs s
      end
  | None => heapArgs r.1 = heapArgs s
  end.
Proof.
  intros r. subst r. unfold logGenericArgs.
  destruct (GetStackInfo _) as [[file function] line].
  pose proof (renderMessage_stdout msgTemplate args s) as Hout.
  destruct args as [a |].
  - destruct (templateError msgTemplate (loadArgs a s)) as [e |] eqn:Hte.
    + rewrite (renderMessage_failure _ _ _ _ Hte) in Hout |- *. simpl.
      split; [done |]. split; [done |]. apply loadArgs_assignArg.
    + unfold templateError, renderMessage in *.
      destruct (Parse msgTemplate) as [t | e]; [| discriminate].
      by destruct (Execute t (loadArgs a s)).
  - done.
Qed.

(** X3. Whenever processing the template fails, in [Parse] or in [Execute],
    the call still writes its record: [msg] and [msgTemplate] both hold the
    raw template, [arg__templateErr] holds the error's message, and the
    call ends as the handle prescribes, with the raw template as the panic
    reason of a fatal handle. *)
Theorem failed_template_falls_back_to_raw
    (rt : Runtime) (eng : TemplateEngine) (argv0 : string) (s : State)
    (logger : option loc) (lg : Logger) (msgTemplate e : string)
    (err : option string) (a : loc) (stackDepth : Z) :
  reachable argv0 s ->
  handle s logger = Some lg ->
  templateError msgTemplate (loadArgs a s) = Some e ->
  let r := logGenericArgs logger msgTemplate err (Some a) stackDepth s in
  r.2 = (if IsFatal lg then Panicked (PanicString msgTemplate) else Returned) /\
  exists record,
    stdout r.1 = (stdout s ++ [record])%list /\
    record !! "msg" = Some msgTemplate /\
    record !! "msgTemplate" = Some msgTemplate /\
    record !! "arg__templateErr" = Some e.
Proof.
  intros Hreach Hlg Hte r.
  destruct (logGenericArgs_record logger lg msgTemplate err (Some a) stackDepth s
              Hlg (reachable_jsonWriter _ _ Hreach))
    as (record & Hst & Hout & _ & Hargs & Hfixed).
  fold r in Hst, Hout.
  rewrite (renderMessage_failure _ _ _ _ Hte) in Hst, Hout, Hargs, Hfixed.
  simpl in *. split; [done |].
  exists record. split; [by rewrite Hst |].
  split; [by rewrite Hfixed, fixedFields_lookup by done |].
  split; [by rewrite Hfixed, fixedFields_lookup by done |].
  change "arg__templateErr" with ("arg_" +:+ "_templateErr").
  by rewrite Hargs, loadArgs_assignArg, lookup_insert_eq.
Qed.

Lemma failed_template_falls_back_to_raw_witness :
  let r := @logGenericArgs exampleRuntime gotemplate.engine (Info exampleState)
             "bye {{.user" None (Some 7%nat) 1 exampleState in
  r.2 = Returned /\
  exists record,
    stdout r.1 = (stdout exampleState ++ [record])%list /\
    record !! "msg" = Some "bye {{.user" /\
    record !! "msgTemplate" = Some "bye {{.user" /\
    record !! "arg__templateErr" = Some gotemplate.unclosedAction.
Proof.
  apply (failed_template_falls_back_to_raw exampleRuntime gotemplate.engine
           "/usr/local/bin/sms-auth-service" exampleState (Info exampleState)
           {| Level := "info"; IsFatal := false |}).
  - apply reachable_init.
  - reflexivity.
  - reflexivity.
Defined.

Lemma alwaysPresent_not_dynamic (key : string) :
  key ∈ alwaysPresent -> String.prefix "arg_" key = false /\ key <> "error".
Proof.
  unfold alwaysPresent. rewrite !elem_of_cons, elem_of_nil. intros H.
  repeat (destruct H as [-> | H]; [by split |]). done.
Qed.

Lemma alwaysPresent_fixedFields (rt : Runtime)
    (level msgTemplate msg file function line exe key : string) :
  is_Some (fixedFields level msgTemplate msg file function line exe !! key) <->
  key ∈ alwaysPresent.
Proof.
  rewrite fixedFields_lookup. unfold alwaysPresent.
  rewrite !elem_of_cons, elem_of_nil. split.
  - intros Hk. repeat (case_decide; [tauto |]). by destruct Hk.
  - intros H. repeat (destruct H as [-> | H]; [by eexists |]). done.
Qed.

(** X4. The record of a call has exactly these fields: the eight fixed
    ones, [error] when an error was supplied, and one prefixed field for
    each entry of the argument map as the call leaves it. *)
Theorem record_has_exactly_these_fields
    (rt : Runtime) (eng : TemplateEngine) (argv0 : string) (s : State)
    (logger : option loc) (lg : Logger) (msgTemplate : string)
    (err : option string) (args : option loc) (stackDepth : Z) :
  reachable argv0 s ->
  handle s logger = Some lg ->
  let r := logGenericArgs logger msgTemplate err args stackDepth s in
  exists record,
    stdout r.1 = (stdout s ++ [record])%list /\
    forall key,
      is_Some (record !! key) <->
      key ∈ alwaysPresent \/
      (key = "error" /\ is_Some err) \/
      (exists a k, args = Some a /\ key = "arg_" +:+ k /\
                   is_Some (loadArgs a r.1 !! k)).
Proof.
  intros Hreach Hlg r.
  destruct (logGenericArgs_record logger lg msgTemplate err args stackDepth s
              Hlg (reachable_jsonWriter _ _ Hreach))
    as (record & Hst & _ & Herr & Hargs & Hfixed).
  fold r in Hst. exists record.
  split; [by rewrite Hst, stdout_Encode, renderMessage_stdout |].
  intros key. destruct (String.prefix "arg_" key) eqn:Hp.
  - pose proof Hp as Hp'. apply has_prefix_arg in Hp' as [k ->].
    rewrite Hargs. split.
    + intros Hk. right. right. destruct args as [a |]; [| by destruct Hk].
      exists a, k. by rewrite Hst.
    + intros [Hin | [[Heq _] | (a & k' & -> & Heq & Hk)]].
      * apply alwaysPresent_not_dynamic in Hin as [Hin _]. congruence.
      * rewrite arg_prefix_unfold in Heq. discriminate.
      * apply arg_prefix_inj in Heq as ->. by rewrite Hst in Hk.
  - destruct (decide (key = "error")) as [-> | Hne].
    + rewrite Herr. split; [tauto |].
      intros [Hin | [[_ He] | (a & k & _ & Heq & _)]]; [| done |].
      * by apply alwaysPresent_not_dynamic in Hin as [_ Hin].
      * rewrite arg_prefix_unfold in Heq. discriminate.
    + rewrite Hfixed, alwaysPresent_fixedFields by done. split; [tauto |].
      intros [Hin | [[Heq _] | (a & k & _ & Heq & _)]]; [done | done |].
      subst key. by rewrite arg_prefix_has_prefix in Hp.
Qed.

Lemma record_has_exactly_these_fields_witness :
  let r := @logGenericArgs exampleRuntime gotemplate.engine
             (Debug exampleState) "{{.user}}" (Some "slow") (Some 7%nat) 1
             exampleState in
  exists record,
    stdout r.1 = (stdout exampleState ++ [record])%list /\
    forall key,
      is_Some (record !! key) <->
      key ∈ alwaysPresent \/
      (key = "error" /\ is_Some (Some "slow")) \/
      (exists a k, Some 7%nat = Some a /\ key = "arg_" +:+ k /\
                   is_Some (loadArgs a r.1 !! k)).
Proof.
  apply (record_has_exactly_these_fields exampleRuntime gotemplate.engine
           "/usr/local/bin/sms-auth-service" exampleState (Debug exampleState)
           {| Level := "debug"; IsFatal := false |}).
  - apply reachable_init.
  - reflexivity.
Defined.

(** ** Sequences of calls *)

Section sequences.
Context `{eng : TemplateEngine}.

Lemma logGenericArgs_heapArgs (rt : Runtime) (logger : option loc)
    (msgTemplate : string) (err : option string) (args : option loc)
    (stackDepth : Z) (s : State) :
  heapArgs (logGenericArgs logger msgTemplate err args stackDepth s).1 =
  heapArgs (renderMessage msgTemplate args s).1.
Proof.
  unfold logGenericArgs.
  destruct (GetStackInfo _) as [[file function] line].
  destruct (renderMessage msgTemplate args s) as [s1 msg]. simpl.
  destruct (handle s1 logger) as [lg |]; [| done].
  destruct (jsonWriter s1); [| done].
  by destruct (IsFatal lg).
Qed.

(** What one call does to standard output. *)
Lemma logGenericArgs_stdout (rt : Runtime) (logger : option loc)
    (msgTemplate : string) (err : option string) (args : option loc)
    (stackDepth : Z) (s : State) :
  let r := logGenericArgs logger msgTemplate err args stackDepth s in
  stdout r.1 = stdout s \/
  exists lg record,
    handle s logger = Some lg /\
    stdout r.1 = (stdout s ++ [record])%list /\
    record !! "level" = Some (Level lg) /\
    record !! "process" = Some (loggerExeName s) /\
    forall name, name ∈ alwaysPresent -> is_Some (record !! name).
Proof.
  intros r. destruct (handle s logger) as [lg |] eqn:Hlg.
  - destruct (jsonWriter s) as [enc |] eqn:Henc.
    + right.
      destruct (logGenericArgs_record logger lg msgTemplate err args stackDepth s
                  Hlg ltac:(by rewrite Henc))
        as (record & Hst & _ & _ & _ & Hfixed).
      fold r in Hst. exists lg, record. split; [done |].
      split; [by rewrite Hst, stdout_Encode, renderMessage_stdout |].
      split; [by rewrite Hfixed, fixedFields_lookup by done |].
      split; [by rewrite Hfixed, fixedFields_lookup by done |].
      intros name Hname.
      destruct (alwaysPresent_not_dynamic name Hname) as [Hp Hne].
      rewrite Hfixed by done. by apply alwaysPresent_fixedFields.
    + left. subst r. unfold logGenericArgs.
      destruct (GetStackInfo _) as [[file function] line].
      pose proof (renderMessage_samePackage msgTemplate args s) as Hsame.
      pose proof (renderMessage_stdout msgTemplate args s) as Hout.
      destruct (renderMessage msgTemplate args s) as [s1 msg]. simpl in *.
      destruct Hsame as (_ & Hj & _). rewrite Hj, Henc.
      by destruct (handle s1 logger).
  - left. subst r. unfold logGenericArgs.
    destruct (GetStackInfo _) as [[file function] line].
    pose proof (renderMessage_samePackage msgTemplate args s) as Hsame.
    pose proof (renderMessage_stdout msgTemplate args s) as Hout.
    destruct (renderMessage msgTemplate args s) as [s1 msg]. simpl in *.
    by rewrite (samePackage_handle _ _ _ Hsame), Hlg.
Qed.

(** What one step of the program does to standard output. *)
Lemma step_stdout (s s' : State) :
  step s s' ->
  stdout s' = stdout s \/
  exists lg record,
    (exists l, heapLogger s !! l = Some lg) /\
    stdout s' = (stdout s ++ [record])%list /\
    record !! "level" = Some (Level lg) /\
    record !! "process" = Some (loggerExeName s) /\
    forall name, name ∈ alwaysPresent -> is_Some (record !! name).
Proof.
  assert (forall rt logger msgTemplate err args stackDepth,
             stdout (@logGenericArgs rt eng logger msgTemplate err args
                       stackDepth s).1 = stdout s \/
             exists lg record,
               (exists l, heapLogger s !! l = Some lg) /\
               stdout (@logGenericArgs rt eng logger msgTemplate err args
                         stackDepth s).1 = (stdout s ++ [record])%list /\
               record !! "level" = Some (Level lg) /\
               record !! "process" = Some (loggerExeName s) /\
               forall name, name ∈ alwaysPresent -> is_Some (record !! name))
    as Hlog.
  { intros rt logger msgTemplate err args stackDepth.
    destruct (logGenericArgs_stdout rt logger msgTemplate err args stackDepth s)
      as [Hsame | (lg & record & Hlg & Hrest)]; [by left | right].
    exists lg, record. split; [| done].
    unfold handle in Hlg. destruct logger as [l |]; [| discriminate].
    simpl in Hlg. by exists l. }
  intros Hstep. destruct Hstep;
    unfold Log, LogArgs, LogErr, LogErrArgs; try apply Hlog; [| by left].
  unfold JSON. destruct encoded as [text | e]; [by left |].
  specialize (Hlog rt (Error s) "error serializing value to json" (Some e) None 1).
  by destruct (logGenericArgs _ _ _ _ _ _).
Qed.

Lemma registry_levelHandles (l : loc) (lg : Logger) :
  registry !! l = Some lg -> lg ∈ levelHandles.
Proof.
  intros Hl. apply elem_of_list_to_map_2 in Hl. simpl in Hl.
  unfold levelHandles.
  repeat (apply elem_of_cons in Hl as [Hl | Hl];
          [injection Hl as -> ->; rewrite !elem_of_cons; tauto |]).
  by apply elem_of_nil in Hl.
Qed.

Lemma reachable_package (argv0 : string) (s : State) :
  reachable argv0 s ->
  loggerExeName s = filepath.Base argv0 /\ jsonWriter s = Some initialEncoder.
Proof.
  induction 1 as [heap | s s' _ [IHe IHj] Hstep]; [done |].
  destruct (step_samePackage _ _ Hstep) as (_ & Hj & _ & _ & _ & _ & _ & _ & He).
  by rewrite He, Hj.
Qed.

End sequences.

(** X5. The diagnostic key outlives the call that set it: after a call
    whose template failed, a later call with the same argument map and a
    template that renders still reports [arg__templateErr], with the
    message of the earlier failure. *)
Theorem diagnostic_key_outlives_the_call
    (rt1 rt2 : Runtime) (eng : TemplateEngine) (argv0 : string) (s : State)
    (logger1 logger2 : option loc) (lg2 : Logger)
    (msgTemplate1 msgTemplate2 e : string) (err1 err2 : option string)
    (a : loc) :
  reachable argv0 s ->
  handle s logger2 = Some lg2 ->
  templateError msgTemplate1 (loadArgs a s) = Some e ->
  let s1 := (@LogErrArgs rt1 eng logger1 msgTemplate1 err1 (Some a) s).1 in
  templateError msgTemplate2 (loadArgs a s1) = None ->
  let r := @LogErrArgs rt2 eng logger2 msgTemplate2 err2 (Some a) s1 in
  exists record,
    stdout r.1 = (stdout s1 ++ [record])%list /\
    record !! "arg__templateErr" = Some e.
Proof.
  intros Hreach Hlg Hte1 s1 Hte2 r.
  assert (loadArgs a s1 = <["_templateErr" := e]> (loadArgs a s)) as Hmap.
  { unfold loadArgs at 1. subst s1. unfold LogErrArgs.
    rewrite logGenericArgs_heapArgs, (renderMessage_failure _ _ _ _ Hte1).
    apply loadArgs_assignArg. }
  pose proof (logGenericArgs_samePackage rt1 logger1 msgTemplate1 err1 (Some a)
                1 s) as Hsame.
  fold (@LogErrArgs rt1 eng logger1 msgTemplate1 err1 (Some a) s) in Hsame.
  fold s1 in Hsame.
  assert (is_Some (jsonWriter s1)) as Henc.
  { destruct Hsame as (_ & -> & _). by eapply reachable_jsonWriter. }
  rewrite <- (samePackage_handle _ _ _ Hsame) in Hlg.
  destruct (logGenericArgs_record logger2 lg2 msgTemplate2 err2 (Some a) 1 s1
              Hlg Henc)
    as (record & Hst & _ & _ & Hargs & _).
  fold (@LogErrArgs rt2 eng logger2 msgTemplate2 err2 (Some a) s1) in Hst.
  fold r in Hst.
  assert (renderMessage msgTemplate2 (Some a) s1 = (s1, (renderMessage msgTemplate2 (Some a) s1).2))
    as Hrender.
  { unfold templateError, renderMessage in *.
    destruct (Parse msgTemplate2) as [t | e']; [| discriminate].
    by destruct (Execute t (loadArgs a s1)). }
  rewrite Hrender in Hst, Hargs. simpl in Hst, Hargs.
  exists record. split; [by rewrite Hst |].
  change "arg__templateErr" with ("arg_" +:+ "_templateErr").
  by rewrite Hargs, Hmap, lookup_insert_eq.
Qed.

Lemma diagnostic_key_outlives_the_call_witness :
  let s1 := (@LogErrArgs exampleRuntime gotemplate.engine (Info exampleState)
               "{{" None (Some 7%nat) exampleState).1 in
  let r := @LogErrArgs exampleRuntime gotemplate.engine (Warn exampleState)
             "recovered" None (Some 7%nat) s1 in
  exists record,
    stdout r.1 = (stdout s1 ++ [record])%list /\
    record !! "arg__templateErr" = Some gotemplate.unclosedAction.
Proof.
  apply (diagnostic_key_outlives_the_call exampleRuntime exampleRuntime
           gotemplate.engine "/usr/local/bin/sms-auth-service" exampleState
           (Info exampleState) (Warn exampleState)
           {| Level := "warn"; IsFatal := false |}).
  - apply reachable_init.
  - reflexivity.
  - reflexivity.
  - by vm_compute.
Defined.

(** X6. Every record a program has written is well formed: it has the
    eight fixed fields, its [process] is the base name of the executable
    and its [level] is the name of one of the six handles. *)
Theorem every_record_is_well_formed
    (eng : TemplateEngine) (argv0 : string) (s : State) :
  reachable argv0 s -> Forall (wellFormedRecord argv0) (stdout s).
Proof.
  induction 1 as [heap | s s' Hreach IH Hstep]; [by constructor |].
  destruct (step_stdout _ _ Hstep)
    as [-> | (lg & record & [l Hl] & -> & Hlevel & Hprocess & Hfixed)];
    [done |].
  apply Forall_app. split; [done |]. constructor; [| constructor].
  split; [done |]. split.
  - rewrite Hprocess. f_equal. by apply (reachable_package argv0).
  - exists lg. split; [| done].
    destruct (reachable_registered _ _ Hreach) as (Hheap & _).
    rewrite Hheap in Hl. by apply (registry_levelHandles l).
Qed.

Lemma every_record_is_well_formed_witness :
  Forall (wellFormedRecord "/usr/local/bin/sms-auth-service")
    (stdout (@LogArgs exampleRuntime gotemplate.engine (Info exampleState)
               "{{.user}} in" (Some 7%nat) exampleState).1).
Proof.
  apply (every_record_is_well_formed gotemplate.engine).
  apply (reachable_step _ exampleState).
  - apply reachable_init.
  - apply (step_LogArgs exampleRuntime).
Defined.

(** X7. What [init] configures stays as it is: in every state of a program
    the process name is the base name of [os.Args[0]] and the encoder
    writes without HTML escaping and without indentation. *)
Theorem package_configuration_is_fixed
    (eng : TemplateEngine) (argv0 : string) (s : State) :
  reachable argv0 s ->
  loggerExeName s = filepath.Base argv0 /\
  jsonWriter s =
    Some {| escapeHTML := false; indentPrefix := ""; indentValue := "" |}.
Proof. apply reachable_package. Qed.

Lemma package_configuration_is_fixed_witness :
  let s := (@LogErr exampleRuntime gotemplate.engine (Error exampleState)
              "down" (Some "timeout") exampleState).1 in
  loggerExeName s = filepath.Base "/usr/local/bin/sms-auth-service" /\
  jsonWriter s =
    Some {| escapeHTML := false; indentPrefix := ""; indentValue := "" |}.
Proof.
  apply (package_configuration_is_fixed gotemplate.engine).
  apply (reachable_step _ exampleState).
  - apply reachable_init.
  - apply (step_LogErr exampleRuntime).
Defined.

(** X8. Standard output only grows: after [n] steps of a program the
    records written before are still there, unchanged and in the same
    order, followed by at most [n] new ones. *)
Theorem stdout_only_grows
    (eng : TemplateEngine) (n : nat) (s s' : State) :
  nsteps step n s s' ->
  exists added,
    stdout s' = (stdout s ++ added)%list /\ (length added <= n)%nat.
Proof.
  induction 1 as [s | n s s1 s' Hstep _ (added & Hadded & Hlen)].
  - exists []. by rewrite app_nil_r.
  - destruct (step_stdout _ _ Hstep)
      as [Hsame | (_ & record & _ & Hone & _)].
    + exists added. rewrite Hadded, Hsame. split; [done | lia].
    + exists (record :: added). rewrite Hadded, Hone, <- app_assoc.
      split; [done | simpl; lia].
Qed.

Lemma stdout_only_grows_witness :
  exists added,
    stdout (@Log exampleRuntime gotemplate.engine (Info exampleState) "up"
              exampleState).1 = (stdout exampleState ++ added)%list /\
    (length added <= 1)%nat.
Proof.
  apply (stdout_only_grows gotemplate.engine 1 exampleState).
  apply nsteps_once. apply (step_Log exampleRuntime).
Defined.

(** ** filepath: what [Base] and [Ext] return on any path *)

Section filepath_results.
Import filepath.

Lemma string_get_ge (s : string) (n : nat) :
  (String.length s <= n)%nat -> String.get n s = None.
Proof.
  revert n. induction s as [| c s IH]; intros n Hn; [by destruct n |].
  simpl in Hn. destruct n as [| n]; [lia |]. simpl. apply IH. lia.
Qed.

Lemma string_forallb_of_get (p : ascii -> bool) (s : string) :
  (forall n c, String.get n s = Some c -> p c = true) ->
  string_forallb p s = true.
Proof.
  induction s as [| d s IH]; intros Hall; [done |]. simpl.
  apply andb_true_iff. split.
  - by apply (Hall 0%nat).
  - apply IH. intros n c Hn. by apply (Hall (S n)).
Qed.

Lemma substring_get_cons (s : string) (i m : nat) (c : ascii) :
  String.get i s = Some c ->
  substring i (S m) s = String c (substring (S i) m s).
Proof.
  revert i. induction s as [| d s IH]; intros i Hget; [by destruct i |].
  destruct i as [| i]; simpl in *.
  - injection Hget as ->. by destruct s.
  - by apply IH.
Qed.

(** The bytes after the index where [lastSeparator] stops are not
    separators. *)
Lemma lastSeparator_tail (path : string) (n : nat) :
  forall j c,
    (match lastSeparator path n with Some i => i < j | None => True end)%nat ->
    (j < n)%nat ->
    String.get j path = Some c -> isPathSeparator c = false.
Proof.
  induction n as [| n IH]; intros j c Hi Hj Hget; [lia |].
  simpl in Hi. destruct (String.get n path) as [d |] eqn:Hd.
  - destruct (isPathSeparator d) eqn:Hsep.
    + lia.
    + destruct (decide (j = n)) as [-> | Hne]; [congruence |].
      apply (IH j c); [done | lia | done].
  - destruct (decide (j = n)) as [-> | Hne]; [congruence |].
    apply (IH j c); [done | lia | done].
Qed.

Lemma lastElement_no_separator (path : string) :
  string_forallb (isNot "/")
    (match lastSeparator path (String.length path) with
     | Some i => substring (S i) (String.length path - S i) path
     | None => path
     end) = true.
Proof.
  apply string_forallb_of_get. intros j c Hget.
  unfold isNot. apply negb_true_iff. fold (isPathSeparator c).
  pose proof (lastSeparator_tail path (String.length path)) as Htail.
  destruct (lastSeparator path (String.length path)) as [i |].
  - destruct (decide (j < String.length path - S i)%nat) as [Hlt | Hge].
    + rewrite substring_correct1 in Hget by done.
      apply (Htail (j + S i)%nat c); [lia | lia | done].
    + rewrite substring_correct2 in Hget by lia. discriminate.
  - destruct (decide (j < String.length path)%nat) as [Hlt | Hge].
    + by apply (Htail j c).
    + rewrite string_get_ge in Hget by lia. discriminate.
Qed.

Lemma Base_cases (path : string) :
  Base path = "." \/ Base path = "/" \/
  (Base path <> "" /\ string_forallb (isNot "/") (Base path) = true).
Proof.
  unfold Base. destruct (String.eqb path ""); [by left |]. cbv zeta.
  set (p := stripTrailingSeparators path (String.length path)).
  pose proof (lastElement_no_separator p) as Hlast.
  destruct (String.eqb_spec
              (match lastSeparator p (String.length p) with
               | Some i => substring (S i) (String.length p - S i) p
               | None => p
               end) "") as [Heq | Hne]; [by right; left |].
  right. right. done.
Qed.

Lemma extFrom_cases (path : string) (n : nat) :
  plainFrom path n ->
  extFrom path n = "" \/
  exists t, extFrom path n = String "." t /\
            string_forallb (isNot ".") t = true /\
            string_forallb (isNot "/") t = true.
Proof.
  induction n as [| n IH]; intros Hplain; [by left |]. simpl.
  destruct (String.get n path) as [c |] eqn:Hc; [| by left].
  destruct (isPathSeparator c) eqn:Hsep; [by left |].
  destruct (Ascii.eqb_spec c ".") as [-> | Hdot].
  - right. exists (substring (S n) (String.length path - S n) path).
    assert (n < String.length path)%nat as Hlen.
    { destruct (decide (n < String.length path)%nat); [done |].
      rewrite string_get_ge in Hc by lia. discriminate. }
    replace (String.length path - n)%nat with (S (String.length path - S n))
      by lia.
    split; [by apply substring_get_cons |].
    split; apply string_forallb_of_get; intros j c Hget;
      (destruct (decide (j < String.length path - S n)%nat);
       [rewrite substring_correct1 in Hget by done;
        by apply (Hplain (j + S n)%nat c ltac:(lia))
       | rewrite substring_correct2 in Hget by lia; discriminate]).
  - apply IH. intros j d Hj Hget.
    destruct (decide (j = n)) as [-> | Hne]; [| apply (Hplain j d); [lia | done]].
    assert (d = c) as -> by congruence. unfold isNot.
    split; apply negb_true_iff;
      [exact Hsep | by apply Ascii.eqb_neq].
Qed.

Lemma Ext_cases (path : string) :
  Ext path = "" \/
  exists t, Ext path = String "." t /\
            string_forallb (isNot ".") t = true /\
            string_forallb (isNot "/") t = true.
Proof.
  apply extFrom_cases. intros j c Hj Hget.
  rewrite string_get_ge in Hget by done. discriminate.
Qed.

End filepath_results.

Lemma Base_is_path_element_aux (path : string) :
  filepath.Base path <> "" /\
  (filepath.Base path = "/" \/
   string_forallb (isNot "/") (filepath.Base path) = true).
Proof.
  destruct (Base_cases path) as [-> | [-> | [Hne Hsep]]].
  - split; [done | by right].
  - split; [done | by left].
  - split; [done | by right].
Qed.

(** X9. [filepath.Base] always returns one path element: the result is
    never empty, it is the separator alone or has no separator in it, and
    taking the base name again changes nothing. *)
Theorem Base_is_one_path_element (path : string) :
  filepath.Base path <> "" /\
  (filepath.Base path = "/" \/
   string_forallb (isNot "/") (filepath.Base path) = true) /\
  filepath.Base (filepath.Base path) = filepath.Base path.
Proof.
  destruct (Base_cases path) as [-> | [-> | [Hne Hsep]]].
  - split; [done |]. split; [by right | reflexivity].
  - split; [done |]. split; [by left | reflexivity].
  - split; [done |]. split; [by right | by apply Base_plain].
Qed.

(** X10. Whatever the runtime reports, the triple of [GetStackInfo] has
    this shape: the file is a single path element, the function is a name
    without dots and separators followed by [()], and the line is the
    decimal rendering of an integer. *)
Theorem GetStackInfo_fields_have_shape (rt : Runtime) (stackDepth : Z) :
  let '(file, function, line) := GetStackInfo stackDepth in
  file <> "" /\
  (file = "/" \/ string_forallb (isNot "/") file = true) /\
  (exists t, function = t +:+ "()" /\
             string_forallb (isNot ".") t = true /\
             string_forallb (isNot "/") t = true) /\
  exists n, line = Int n.
Proof.
  unfold GetStackInfo.
  destruct (Caller _) as [[[pc file] line] |].
  - destruct (Base_is_path_element_aux file) as [Hne Hsep].
    destruct (FuncForPC pc) as [name |].
    + split; [done |]. split; [done |]. split; [| by exists line].
      destruct (Ext_cases name) as [-> | (t & -> & Hdot & Hsl)].
      * by exists "".
      * exists t. by rewrite TrimLeft_dot.
    + split; [done |]. split; [done |]. split; [by exists "?" | by exists line].
  - split; [done |]. split; [by right |].
    split; [by exists "?" | by exists 0].
Qed.

(** ** JSON *)






(** ** The decimal strings of the formatters *)

Section decimal_strings.
Import strconv.

Lemma digitChar_isDigit (d : Z) : 0 <= d <= 9 -> isDigit (digitChar d) = true.
Proof.
  intros Hd. unfold isDigit, digitChar.
  rewrite nat_ascii_embedding by lia.
  apply andb_true_iff. split; [apply Nat.leb_le | apply Nat.leb_le]; lia.
Qed.

Lemma string_forallb_app (p : ascii -> bool) (s1 s2 : string) :
  string_forallb p (s1 +:+ s2) = string_forallb p s1 && string_forallb p s2.
Proof.
  induction s1 as [| c s1 IH]; [done |].
  rewrite string_app_cons. simpl. by rewrite IH, andb_assoc.
Qed.

Lemma digits_all_digits (u : Z) :
  0 <= u -> string_forallb isDigit (digits u "") = true.
Proof.
  intros Hu. pattern u. apply Zlt_0_ind; [| done]. clear u Hu.
  intros u IH Hu.
  destruct (Z_lt_dec u 10) as [Hlt | Hge].
  - rewrite digits_small by done. simpl.
    by rewrite digitChar_isDigit by lia.
  - assert (0 <= u / 10 < u)
      by (split; [apply Z.div_pos | apply Z.div_lt]; lia).
    pose proof (Z.mod_pos_bound u 10 ltac:(lia)).
    rewrite digits_step, digits_acc, string_forallb_app, IH by lia.
    simpl. by rewrite digitChar_isDigit by lia.
Qed.

Lemma digits_head_nonzero (u : Z) :
  0 < u -> exists d s, 1 <= d <= 9 /\ digits u "" = String (digitChar d) s.
Proof.
  intros Hu. assert (0 <= u) as Hu0 by lia. revert Hu.
  pattern u. apply Zlt_0_ind; [| done]. clear u Hu0.
  intros u IH _ Hu.
  destruct (Z_lt_dec u 10) as [Hlt | Hge].
  - exists u, "". split; [lia |]. by rewrite digits_small.
  - assert (0 < u / 10 < u)
      by (split; [apply Z.div_str_pos | apply Z.div_lt]; lia).
    destruct (IH (u / 10) ltac:(lia) ltac:(lia)) as (d & s & Hd & Hs).
    exists d, (s +:+ String (digitChar (u mod 10)) "").
    split; [done |].
    by rewrite digits_step, digits_acc, Hs by lia.
Qed.

Lemma digitChar_inj_zero (d : Z) : 0 <= d <= 9 -> digitChar d = "0"%char -> d = 0.
Proof.
  intros Hd Heq. pose proof (nat_of_digitChar d Hd) as Hn.
  rewrite Heq in Hn. change (Z.of_nat (nat_of_ascii "0") - 48) with 0 in Hn.
  lia.
Qed.

(** The round trip of the formatters, for every type at once. *)
Lemma formatScalar_parseScalar (t : IntType) (v : Z) :
  inRange t v -> parseScalar t (formatScalar t v) = Some v.
Proof.
  intros Hv. pose proof (inRange_bounds t v Hv) as Hb.
  unfold parseScalar.
  destruct t; simpl in Hb |- *;
    unfold Int, Int32, Int64, Uint32, Uint64, Itoa, IntSize in *;
    rewrite ?toInt_id, ?toUint_id by lia;
    (apply ParseInt_FormatInt || apply ParseUint_FormatUint); lia.
Qed.

End decimal_strings.

(** X12. [Uint64] writes a number in canonical decimal: the text is not
    empty, holds decimal digits only, and starts with the digit zero only
    when it is the text of zero. *)
Theorem Uint64_is_canonical_decimal (u : Z) :
  0 <= u ->
  Uint64 u <> "" /\
  string_forallb isDigit (Uint64 u) = true /\
  forall rest, Uint64 u = String "0" rest -> u = 0 /\ rest = "".
Proof.
  intros Hu. unfold Uint64, strconv.FormatUint, strconv.formatBits.
  split; [| split].
  - destruct (digits_head u Hu) as (d & s & _ & ->). done.
  - by apply digits_all_digits.
  - intros rest Hrest.
    destruct (decide (u = 0)) as [-> | Hne].
    + rewrite strconv.digits_equation_1 in Hrest. simpl in Hrest.
      injection Hrest as <-. done.
    + destruct (digits_head_nonzero u ltac:(lia)) as (d & s & Hd & Hs).
      rewrite Hs in Hrest. injection Hrest as Hc _.
      apply digitChar_inj_zero in Hc; lia.
Qed.

Lemma Uint64_is_canonical_decimal_witness :
  Uint64 18446744073709551615 <> "" /\
  string_forallb isDigit (Uint64 18446744073709551615) = true /\
  forall rest, Uint64 18446744073709551615 = String "0" rest ->
               18446744073709551615 = 0 /\ rest = "".
Proof. apply (Uint64_is_canonical_decimal 18446744073709551615). lia. Defined.

(** X13. [Int64] writes a negative number as a minus sign followed by the
    text of its magnitude, the most negative value included, and a number
    that is not negative like [Uint64] does. *)
Theorem Int64_writes_sign_then_magnitude (i : Z) :
  inRange TInt64 i ->
  Int64 i = if i <? 0 then String "-" (Uint64 (- i)) else Uint64 i.
Proof.
  intros Hi. apply inRange_bounds in Hi. simpl in Hi.
  unfold Int64, Uint64, strconv.FormatInt, strconv.FormatUint,
    strconv.formatBits.
  destruct (Z.ltb_spec i 0) as [Hneg | Hpos].
  - by rewrite toUint_neg by lia.
  - by rewrite toUint_id by lia.
Qed.

Lemma Int64_writes_sign_then_magnitude_witness :
  Int64 (- 9223372036854775808) =
  if - 9223372036854775808 <? 0
  then String "-" (Uint64 (- - 9223372036854775808))
  else Uint64 (- 9223372036854775808).
Proof.
  apply (Int64_writes_sign_then_magnitude (- 9223372036854775808)).
  unfold inRange, minValue, maxValue, bitSize. simpl. lia.
Defined.

(** X14. Each formatter is injective on the values of its type: two
    different integers never get the same text. *)
Theorem formatters_are_injective (t : IntType) (v1 v2 : Z) :
  inRange t v1 -> inRange t v2 ->
  formatScalar t v1 = formatScalar t v2 -> v1 = v2.
Proof.
  intros H1 H2 Heq.
  pose proof (formatScalar_parseScalar t v1 H1) as Hp1.
  pose proof (formatScalar_parseScalar t v2 H2) as Hp2.
  rewrite Heq in Hp1. congruence.
Qed.

Lemma formatters_are_injective_witness : 0 - 2147483648 = - 2147483648.
Proof.
  apply (formatters_are_injective TInt32 (0 - 2147483648) (- 2147483648)).
  - unfold inRange, minValue, maxValue, bitSize. simpl. lia.
  - unfold inRange, minValue, maxValue, bitSize. simpl. lia.
  - reflexivity.
Defined.

Lemma addArgs_any_order_witness :
  addArgsInOrder [("count", "3"); ("user", "alice")]
    ({[ "msg" := "hello" ]} : Args) =
  addArgs {[ "user" := "alice"; "count" := "3" ]} {[ "msg" := "hello" ]}.
Proof.
  apply (addArgs_any_order {[ "user" := "alice"; "count" := "3" ]}
           {[ "msg" := "hello" ]} [("count", "3"); ("user", "alice")]).
  apply (bool_decide_unpack _). by vm_compute.
Defined.

(** ** An empty argument map is not a missing one *)

Lemma dynamicFields_lookup (record : Args) (key : string) :
  dynamicFields record !! key =
  if String.prefix "arg_" key then record !! key else None.
Proof.
  unfold dynamicFields. destruct (String.prefix "arg_" key) eqn:Hp.
  - destruct (record !! key) as [v |] eqn:Hv.
    + by apply map_lookup_filter_Some.
    + apply map_lookup_filter_None. by left.
  - apply map_lookup_filter_None. right. intros v _ Hp'. simpl in Hp'.
    congruence.
Qed.

(** X16. A call with an empty, non-nil argument map still processes the
    template: when the template fails the record gets the diagnostic as its
    only dynamic field, and when it renders the record has no dynamic
    field. *)
Theorem empty_map_still_processes_the_template
    (rt : Runtime) (eng : TemplateEngine) (argv0 : string) (s : State)
    (logger : option loc) (lg : Logger) (msgTemplate : string)
    (err : option string) (a : loc) (stackDepth : Z) :
  reachable argv0 s ->
  handle s logger = Some lg ->
  loadArgs a s = ∅ ->
  let r := logGenericArgs logger msgTemplate err (Some a) stackDepth s in
  exists record,
    stdout r.1 = (stdout s ++ [record])%list /\
    dynamicFields record =
      match templateError msgTemplate ∅ with
      | Some e => {[ "arg__templateErr" := e ]}
      | None => ∅
      end.
Proof.
  intros Hreach Hlg Hempty r.
  destruct (logGenericArgs_record logger lg msgTemplate err (Some a) stackDepth s
              Hlg (reachable_jsonWriter _ _ Hreach))
    as (record & Hst & _ & _ & Hargs & _).
  fold r in Hst. exists record.
  split; [by rewrite Hst, stdout_Encode, renderMessage_stdout |].
  apply map_eq. intros key. rewrite dynamicFields_lookup.
  assert (templateError msgTemplate (loadArgs a s) =
          templateError msgTemplate ∅) as Hsame by (by rewrite Hempty).
  destruct (templateError msgTemplate ∅) as [e |]; rename Hsame into Hte.
  - rewrite (renderMessage_failure _ _ _ _ Hte) in Hargs. simpl in Hargs.
    destruct (String.prefix "arg_" key) eqn:Hp.
    + apply has_prefix_arg in Hp as [k ->].
      rewrite Hargs, loadArgs_assignArg, Hempty.
      change "arg__templateErr" with ("arg_" +:+ "_templateErr").
      destruct (decide (k = "_templateErr")) as [-> | Hne].
      * by rewrite lookup_insert_eq, lookup_singleton_eq.
      * rewrite lookup_insert_ne, lookup_empty by done.
        rewrite lookup_singleton_ne; [done |].
        intros Heq. by apply arg_prefix_inj in Heq.
    + rewrite lookup_singleton_ne; [done |]. intros <-. discriminate Hp.
  - rewrite lookup_empty.
    destruct (String.prefix "arg_" key) eqn:Hp; [| done].
    apply has_prefix_arg in Hp as [k ->]. rewrite Hargs.
    assert ((renderMessage msgTemplate (Some a) s).1 = s) as ->.
    { unfold templateError, renderMessage in *.
      destruct (Parse msgTemplate) as [t | e]; [| discriminate].
      by destruct (Execute t (loadArgs a s)). }
    by rewrite Hempty.
Qed.

Lemma empty_map_still_processes_the_template_witness :
  let r := @logGenericArgs exampleRuntime gotemplate.engine
             (Info emptyMapState) "rate 100% {{" None (Some 8%nat) 1
             emptyMapState in
  exists record,
    stdout r.1 = (stdout emptyMapState ++ [record])%list /\
    dynamicFields record =
      match @templateError gotemplate.engine "rate 100% {{" ∅ with
      | Some e => {[ "arg__templateErr" := e ]}
      | None => ∅
      end.
Proof.
  apply (empty_map_still_processes_the_template exampleRuntime
           gotemplate.engine "/usr/local/bin/sms-auth-service" emptyMapState
           (Info emptyMapState) {| Level := "info"; IsFatal := false |}).
  - apply reachable_init.
  - reflexivity.
  - reflexivity.
Defined.

(** ** Function names with a dot in their last part *)

(** C7, where the code departs from it. The runtime names a closure nested
    in a closure of [main.main] as [main.main.func1.1]; for a frame in it
    [GetStackInfo] gives the function as [1()], the text after the last
    dot, which is not the name of the function.  The file and the line are
    as the claim says. *)
Theorem GetStackInfo_misnames_nested_closure :
  @FuncForPC closureRuntime 4202496 = Some "main.main.func1.1" /\
  @GetStackInfo closureRuntime 0 = ("main.go", "1()", "12") /\
  (@GetStackInfo closureRuntime 0).1.2 <> "func1.1()" /\
  (@GetStackInfo closureRuntime 0).1.2 <> "main.func1.1()".
Proof.
  split; [reflexivity |]. split; [by vm_compute |].
  split; by vm_compute.
Qed.

(** ** Errors whose [Error()] panics *)

(** X17. When the error's [Error()] method panics, a call through a level
    handle panics with that value and writes no record, whether the handle
    is fatal or not; the template was processed before, so the caller's
    map is already marked if the template failed. *)
Theorem panicking_error_ends_the_call
    (rt : Runtime) (eng : TemplateEngine) (s : State)
    (logger : option loc) (lg : Logger) (msgTemplate : string)
    (v : PanicValue) (args : option loc) (stackDepth : Z) :
  handle s logger = Some lg ->
  let r := goerror.logGenericArgs logger msgTemplate
             (Some (goerror.ErrorPanics v)) args stackDepth s in
  r.2 = Panicked v /\
  stdout r.1 = stdout s /\
  match args with
  | Some a =>
      match templateError msgTemplate (loadArgs a s) with
      | Some e => loadArgs a r.1 = <["_templateErr" := e]> (loadArgs a s)
      | None => heapArgs r.1 = heapArgs s
      end
  | None => heapArgs r.1 = heapArgs s
  end.
Proof.
  intros Hlg r. subst r.
  rewrite (goerror_logGenericArgs_panics _ _ _ lg _ _ _ _ _ Hlg). simpl.
  split; [done |]. split; [apply renderMessage_stdout |].
  destruct args as [a |]; [| done].
  destruct (templateError msgTemplate (loadArgs a s)) as [e |] eqn:Hte.
  - rewrite (renderMessage_failure _ _ _ _ Hte). apply loadArgs_assignArg.
  - unfold templateError, renderMessage in *.
    destruct (Parse msgTemplate) as [t | e]; [| discriminate].
    by destruct (Execute t (loadArgs a s)).
Qed.

Lemma panicking_error_ends_the_call_witness :
  let r := @goerror.logGenericArgs exampleRuntime gotemplate.engine
             (Fatal exampleState) "{{" (Some (goerror.ErrorPanics NilDereference))
             (Some 7%nat) 1 exampleState in
  r.2 = Panicked NilDereference /\
  stdout r.1 = stdout exampleState /\
  match @templateError gotemplate.engine "{{" (loadArgs 7%nat exampleState) with
  | Some e =>
      loadArgs 7%nat r.1 = <["_templateErr" := e]> (loadArgs 7%nat exampleState)
  | None => heapArgs r.1 = heapArgs exampleState
  end.
Proof.
  apply (panicking_error_ends_the_call exampleRuntime gotemplate.engine
           exampleState (Fatal exampleState)
           {| Level := "fatal"; IsFatal := true |}).
  reflexivity.
Defined.

(** The calls on error values are steps of the program too, so what holds
    in every reachable state holds after them: a call whose error panics
    leaves the memory as the caller could have left it, with at most its
    own map marked. *)
Lemma renderMessage_withHeapArgs (eng : TemplateEngine)
    (msgTemplate : string) (args : option loc) (s : State) :
  (renderMessage msgTemplate args s).1 =
  withHeapArgs (heapArgs (renderMessage msgTemplate args s).1) s.
Proof.
  assert (s = withHeapArgs (heapArgs s) s) as Hs by (by destruct s).
  unfold renderMessage. destruct args as [a |]; [| exact Hs].
  destruct (Parse msgTemplate) as [t | e]; [| done].
  by destruct (Execute t (loadArgs a s)).
Qed.

Lemma goerror_calls_are_steps (rt : Runtime) (eng : TemplateEngine)
    (logger : option loc) (msgTemplate : string) (err : option goerror.error)
    (args : option loc) (s : State) :
  step s (goerror.LogErr logger msgTemplate err s).1 /\
  step s (goerror.LogErrArgs logger msgTemplate err args s).1.
Proof.
  unfold goerror.LogErr, goerror.LogErrArgs.
  destruct err as [[text | v] |].
  - rewrite !goerror_logGenericArgs_returns by (intros v; discriminate).
    split; [apply (step_LogErr rt) | apply (step_LogErrArgs rt)].
  - assert (forall a,
               (goerror.logGenericArgs logger msgTemplate
                  (Some (goerror.ErrorPanics v)) a 1 s).1 =
               (renderMessage msgTemplate a s).1) as Hstate.
    { intros a. unfold goerror.logGenericArgs.
      destruct (GetStackInfo _) as [[file function] line].
      destruct (renderMessage msgTemplate a s) as [s1 msg]. simpl.
      by destruct (handle s1 logger). }
    rewrite !Hstate.
    split; rewrite renderMessage_withHeapArgs; apply step_caller.
  - rewrite !goerror_logGenericArgs_returns by (intros v; discriminate).
    split; [apply (step_LogErr rt) | apply (step_LogErrArgs rt)].
Qed.
